(** * Imagor request orchestration (imagor.go)

    A shallow embedding of the HTTP handler of [imagor.go]: the loader
    chain behind the short-lived result cache, the processor chain, the
    storage fan-out and the shaping of the HTTP response, followed by the
    properties of these operations.

    Conventions of the embedding.
    - A Go [error] is an [option error]: [None] is [nil].
    - A [[]byte] is a [list byte]; [len(b) > 0] is [nonempty b]; a nil
      slice and an empty slice are both [[]].
    - Every operation that touches the cache, the logger, a loader, a
      storage or a processor runs in the monad [M]: it threads the cache
      store and emits the events it causes, in order.
    - [context.Context] values carry deadlines and cancellation only; they
      are not represented.  What a cancelled context makes a backend return
      is an [error] for which [errors.Is(err, context.Canceled)] holds. *)

From Stdlib Require Import ZArith Ascii.
From stdpp Require Import base gmap strings list pretty.

Local Open Scope string_scope.
Local Open Scope Z_scope.
Local Open Scope list_scope.

Abbreviation bytes := (list Byte.byte).

(** ** Errors *)

(** [imagor.Error]: the classified error, a comparable struct. *)
Record Error := NewError { Message : string; Code : Z }.

#[global] Instance Error_eq_dec : EqDecision Error.
Proof. solve_decision. Defined.

(** A value of Go's [error] interface.  [Foreign msg c] is any error that
    is neither an [imagor.Error] nor [context.Canceled] itself; [c] tells
    whether its [Unwrap] chain reaches [context.Canceled]. *)
Inductive error :=
| ErrorOf (e : Error)
| Canceled
| Foreign (msg : string) (wrapsCanceled : bool).

#[global] Instance error_eq_dec : EqDecision error.
Proof. solve_decision. Defined.

(** [errors.Is(err, context.Canceled)] *)
Definition errors_Is_Canceled (e : error) : bool :=
  match e with
  | Canceled => true
  | Foreign _ w => w
  | ErrorOf _ => false
  end.

(** ** Requests, metadata and the pluggable backends *)

(** [*Meta]; [ContentType] is the only field the handler reads. *)
Record Meta := { ContentType : string }.

(** [Params]: the fields of the parsed request that the handler reads. *)
Record Params := {
  Path : string;
  Image : string;
  P_Unsafe : bool;
  P_Meta : bool
}.

(** [Loader.Load(r, image)] *)
Record Loader := { Load : string -> bytes * option error }.

(** [Storage.Save(ctx, image, buf)] *)
Record Storage := { Save : string -> bytes -> option error }.

(** What [Processor.Process(ctx, buf, params, load)] does, as far as the
    handler can see: it returns, or it calls the [load] callback it was
    given and goes on with what comes back. *)
Inductive Process_run :=
| Return (b : bytes) (m : option Meta) (e : option error)
| CallLoad (image : string) (k : bytes * option error -> Process_run).

Record Processor := { Process : bytes -> Params -> Process_run }.

Record Imagor := {
  Unsafe : bool;
  Secret : string;
  Loaders : list Loader;
  Storages : list Storage;
  Processors : list Processor;
  RequestTimeout : Z;
  CacheTTL : Z;
  Debug : bool
}.

(** ** What the file takes from the rest of the package and from libraries

    [errors.go] (the sentinels and [WrapError]) and the parameter parser
    ([ParseParams], [Params.Verify]) are not part of this file, nor are
    [json.Marshal], [http.DetectContentType] and [strconv.Itoa]. *)

(** The three kinds of value the handler hands to [json.Marshal]. *)
Inductive JSONArg :=
| JInfo
| JMeta (m : Meta)
| JError (e : error).

Class Externals := {
  ErrPass : Error;
  ErrNotFound : Error;
  ErrHashMismatch : Error;
  WrapError : option error -> option error;
  ParseParams : string -> Params;
  Verify : Params -> string -> bool;
  json_Marshal : JSONArg -> bytes;
  DetectContentType : bytes -> string;
  Itoa : nat -> string
}.

(** ** Events and the monad *)

Inductive Level := DebugLevel | InfoLevel | ErrorLevel.

#[global] Instance Level_eq_dec : EqDecision Level.
Proof. solve_decision. Defined.

(** The non-nil [func()] returned by [context.WithTimeout]. *)
Inductive CancelFunc := CancelTimeout (d : Z).

(** A goroutine started by [save]: the variables its closure captured.
    [go_cancel = None] is a nil [cancel]. *)
Record Goroutine := {
  go_storage : Storage;
  go_image : string;
  go_buf : bytes;
  go_cancel : option CancelFunc
}.

Inductive Event :=
| EvLog (lvl : Level) (msg : string) (e : option error)
| EvCache (key : string) (hit : bool)
| EvLoad (i : nat) (image : string)
| EvProcess (i : nat) (input : bytes) (b : bytes) (m : option Meta) (e : option error)
| EvGo (t : Goroutine).

(** One entry of the cache: the outcome of a load and when it expires. *)
Record Entry := {
  ent_buf : bytes;
  ent_err : option error;
  ent_expires : Z
}.

Record Store := {
  entries : gmap string Entry;
  clock : Z
}.

Definition M (A : Type) : Type := Store -> A * Store * list Event.

Definition result {A} (r : A * Store * list Event) : A := r.1.1.
Definition store {A} (r : A * Store * list Event) : Store := r.1.2.
Definition events {A} (r : A * Store * list Event) : list Event := r.2.

Definition ret {A} (a : A) : M A := fun s => (a, s, []).

Definition bind {A B} (m : M A) (f : A -> M B) : M B :=
  fun s =>
    let r1 := m s in
    let r2 := f (result r1) (store r1) in
    (result r2, store r2, events r1 ++ events r2).

Definition emit (ev : Event) : M unit := fun s => (tt, s, [ev]).

Definition when (c : bool) (m : M unit) : M unit := if c then m else ret tt.

Declare Scope imagor_scope.
Delimit Scope imagor_scope with imagor.
Notation "x <- c1 ;; c2" := (bind c1 (fun x => c2))
  (at level 100, c1 at next level, right associativity) : imagor_scope.
Notation "c1 ;; c2" := (bind c1 (fun _ => c2))
  (at level 100, right associativity) : imagor_scope.
Local Open Scope imagor_scope.

Definition Logger_Debug (msg : string) (e : option error) : M unit :=
  emit (EvLog DebugLevel msg e).
Definition Logger_Info (msg : string) (e : option error) : M unit :=
  emit (EvLog InfoLevel msg e).
Definition Logger_Error (msg : string) (e : option error) : M unit :=
  emit (EvLog ErrorLevel msg e).

(** ** The result cache *)

(** Modelled from the spec: the cache behind [app.Cache] belongs to the
    library github.com/cshum/hybridcache, which is not part of the
    repository.  Section 3 of the spec: an entry holds the outcome of a
    load and an expiry time, and an entry past its expiry counts as
    absent. *)
Definition cache_get (s : Store) (key : string) : option Entry :=
  match entries s !! key with
  | Some ent => if clock s <? ent_expires ent then Some ent else None
  | None => None
  end.

(** Modelled from the spec: storing an outcome of the same library, with
    the given time to live (section 4.2). *)
Definition cache_set (s : Store) (key : string) (r : bytes * option error)
    (ttl : Z) : Store :=
  {| entries :=
       <[key := {| ent_buf := r.1; ent_err := r.2;
                   ent_expires := clock s + ttl |}]> (entries s);
     clock := clock s |}.

(** Modelled from the spec: [cache.NewFunc(c, timeout, resultTTL,
    errorTTL).DoBytes(ctx, key, produce)] of the same library.  Section 4.2
    of the spec, read for one caller at a time: a live entry is returned
    without running the producing function; otherwise the function runs
    and its outcome is stored, with the result TTL on success and the
    error TTL on failure. *)
Definition DoBytes (resultTTL errorTTL : Z) (key : string)
    (produce : M (bytes * option error)) : M (bytes * option error) :=
  fun s =>
    match cache_get s key with
    | Some ent => ((ent_buf ent, ent_err ent), s, [EvCache key true])
    | None =>
        let r := produce s in
        let ttl := match (result r).2 with
                   | None => resultTTL
                   | Some _ => errorTTL
                   end in
        (result r, cache_set (store r) key (result r) ttl,
         EvCache key false :: events r)
    end.

(** ** The handler *)

Section Handler.
Context `{X : Externals}.

(** [e == ErrPass], [e == ErrNotFound] on an [error] value *)
Definition is_ErrPass (e : error) : bool := bool_decide (e = ErrorOf ErrPass).
Definition is_ErrNotFound (e : error) : bool :=
  bool_decide (e = ErrorOf ErrNotFound).

(** [len(b) > 0] *)
Definition nonempty (b : bytes) : bool := (0 <? length b)%nat.

(** [save]: one goroutine per storage.  [cancel] is assigned only under
    [app.RequestTimeout > 0]; [DetachContext] only makes a context. *)
Fixpoint save (app : Imagor) (storages : list Storage) (image : string)
    (buf : bytes) : M unit :=
  match storages with
  | [] => ret tt
  | storage :: rest =>
      let cancel :=
        if 0 <? RequestTimeout app
        then Some (CancelTimeout (RequestTimeout app))
        else None in
      emit (EvGo {| go_storage := storage; go_image := image;
                    go_buf := buf; go_cancel := cancel |}) ;;
      save app rest image buf
  end.

(** How a goroutine ends. *)
Inductive Exit :=
| Returned
| NilFuncPanic.

(** The body of the goroutine of [save]: [s.Save], the log line, and at
    exit the deferred [cancel()], which panics when [cancel] is nil. *)
Definition save_goroutine (app : Imagor) (t : Goroutine) : list Event * Exit :=
  let logs :=
    match Save (go_storage t) (go_image t) (go_buf t) with
    | Some err => [EvLog ErrorLevel "save" (Some err)]
    | None => if Debug app then [EvLog DebugLevel "saved" None] else []
    end in
  (logs, match go_cancel t with
         | Some _ => Returned
         | None => NilFuncPanic
         end).

(** The [for _, loader := range app.Loaders] loop of the function handed
    to the cache; [buf] and [err] are its named results. *)
Fixpoint load_loop (app : Imagor) (image : string) (i : nat)
    (loaders : list Loader) (buf : bytes) (err : option error)
    : M (bytes * option error) :=
  match loaders with
  | [] => ret (buf, err)
  | loader :: rest =>
      emit (EvLoad i image) ;;
      let b := (Load loader image).1 in
      let buf := if nonempty b then b else buf in
      match (Load loader image).2 with
      | None => ret (buf, None)
      | Some e =>
          (if negb (is_ErrPass e) && negb (is_ErrNotFound e)
              && negb (errors_Is_Canceled e)
           then Logger_Error "load" (Some e)
           else when (Debug app) (Logger_Debug "load" (Some e))) ;;
          load_loop app image (S i) rest buf (Some e)
      end
  end.

(** The function handed to the cache in [load]: the loop, then the
    fan-out to the storages or the final shape of the error. *)
Definition load_func (app : Imagor) (image : string)
    : M (bytes * option error) :=
  r <- load_loop app image 0 (Loaders app) [] None ;;
  match r.2 with
  | None =>
      when (Debug app) (Logger_Debug "loaded" None) ;;
      when (0 <? length (Storages app))%nat
        (save app (Storages app) image r.1) ;;
      ret (r.1, None)
  | Some e =>
      if negb (errors_Is_Canceled e) then
        let e := if is_ErrPass e then ErrorOf ErrNotFound else e in
        Logger_Error "load" (Some e) ;;
        ret (r.1, Some e)
      else ret (r.1, Some e)
  end.

Definition load (app : Imagor) (image : string) : M (bytes * option error) :=
  r <- DoBytes (CacheTTL app) (CacheTTL app) image (load_func app image) ;;
  ret (r.1, WrapError r.2).

(** A call of [processor.Process] with [load] as its callback. *)
Fixpoint run_Process (load : string -> M (bytes * option error))
    (p : Process_run) : M (bytes * option Meta * option error) :=
  match p with
  | Return b m e => ret (b, m, e)
  | CallLoad image k => r <- load image ;; run_Process load (k r)
  end.

(** The [for _, processor := range app.Processors] loop of [Do]; [buf]
    and [err] are named results of [Do], [meta] is still nil. *)
Fixpoint Do_loop (app : Imagor) (params : Params) (i : nat)
    (processors : list Processor) (buf : bytes) (err : option error)
    : M (bytes * option Meta * option error) :=
  match processors with
  | [] => ret (buf, None, err)
  | processor :: rest =>
      r <- run_Process (load app) (Process processor buf params) ;;
      let b := r.1.1 in
      let m := r.1.2 in
      emit (EvProcess i buf b m r.2) ;;
      match r.2 with
      | None =>
          when (Debug app) (Logger_Debug "processed" None) ;;
          ret (b, m, err)
      | Some e =>
          if is_ErrPass e then
            let buf := if nonempty b then b else buf in
            when (Debug app) (Logger_Debug "process" (Some e)) ;;
            Do_loop app params (S i) rest buf err
          else
            Logger_Error "process" (Some e) ;;
            Do_loop app params (S i) rest buf (Some e)
      end
  end.

Definition Do (app : Imagor) (params : Params)
    : M (bytes * option Meta * option error) :=
  if negb (Unsafe app && P_Unsafe params) && negb (Verify params (Secret app))
  then
    when (Debug app) (Logger_Debug "hash mismatch" None) ;;
    ret ([], None, Some (ErrorOf ErrHashMismatch))
  else
    r <- load app (Image params) ;;
    match r.2 with
    | Some e =>
        Logger_Info "load" (Some e) ;;
        ret (r.1, None, Some e)
    | None => Do_loop app params 0 (Processors app) r.1 None
    end.

(** ** The response *)

(** The calls made on the [http.ResponseWriter], in order. *)
Inductive WCall :=
| Header_Set (key value : string)
| WriteHeader (code : Z)
| Write (b : bytes).

Definition resJSON (v : JSONArg) : list WCall :=
  let buf := json_Marshal v in
  [Header_Set "Content-Type" "application/json";
   Header_Set "Content-Length" (Itoa (length buf));
   Write buf].

(** The status line of the error branch of [ServeHTTP]. *)
Definition write_status (err : error) : list WCall :=
  match WrapError (Some err) with
  | Some (ErrorOf e) =>
      let e := if bool_decide (e = ErrPass) then ErrNotFound else e in
      [WriteHeader (Code e)]
  | _ => []
  end.

(** [ServeHTTP] from [ln := len(buf)] on. *)
Definition write_result (params : Params)
    (r : bytes * option Meta * option error) : list WCall :=
  let buf := r.1.1 in
  let ln := length buf in
  let tail :=
    match r.2 with
    | Some err =>
        write_status err ++
        (if (0 <? ln)%nat
         then [Header_Set "Content-Length" (Itoa ln); Write buf]
         else resJSON (JError err))
    | None => [Header_Set "Content-Length" (Itoa ln); Write buf]
    end in
  match r.1.2 with
  | Some meta =>
      if P_Meta params then resJSON (JMeta meta)
      else Header_Set "Content-Type" (ContentType meta) :: tail
  | None =>
      if (0 <? ln)%nat
      then Header_Set "Content-Type" (DetectContentType buf) :: tail
      else tail
  end.

Definition ServeHTTP (app : Imagor) (uri : string) : M (list WCall) :=
  if bool_decide (uri = "/") then ret (resJSON JInfo)
  else
    let params := ParseParams uri in
    when (Debug app) (Logger_Debug "params" None) ;;
    r <- Do app params ;;
    ret (write_result params r).

End Handler.

(** ** Reading a run

    What a run did is read off its events; what the loaders return, which
    does not depend on the run, is read off the list of loaders. *)

(** The loaders invoked, by position in [app.Loaders], in order. *)
Definition loads (evs : list Event) : list nat :=
  omap (λ ev, match ev with EvLoad i _ => Some i | _ => None end) evs.

(** The error each invoked processor returned, in order. *)
Definition stage_errors (evs : list Event) : list (option error) :=
  omap (λ ev, match ev with EvProcess _ _ _ _ e => Some e | _ => None end) evs.

(** The bytes and metadata each invoked processor returned, in order. *)
Definition stage_outputs (evs : list Event) : list (bytes * option Meta) :=
  omap (λ ev, match ev with EvProcess _ _ b m _ => Some (b, m) | _ => None end)
    evs.

(** The event is not the return of a processor. *)
Definition below_processors (ev : Event) : Prop :=
  match ev with EvProcess _ _ _ _ _ => False | _ => True end.

(** The goroutines started, in order. *)
Definition spawned (evs : list Event) : list Goroutine :=
  omap (λ ev, match ev with EvGo t => Some t | _ => None end) evs.

(** The errors logged at error level, in order. *)
Definition logged_errors (evs : list Event) : list (option error) :=
  omap (λ ev, match ev with EvLog ErrorLevel _ e => Some e | _ => None end) evs.

(** The loader returns an error for this image. *)
Definition fails (image : string) (l : Loader) : Prop :=
  (Load l image).2 ≠ None.

(** The loader returns no bytes for this image. *)
Definition bytesless (image : string) (l : Loader) : Prop :=
  (Load l image).1 = [].

(** The buffer left after these loaders have returned, starting from
    [buf]: the last non-empty one. *)
Definition retained (image : string) (ls : list Loader) (buf : bytes) : bytes :=
  fold_left (λ acc l, if nonempty (Load l image).1 then (Load l image).1 else acc)
    ls buf.

Section Reading.
Context `{X : Externals}.

(** The error [Do] has recorded after these stage errors, starting from
    [err]: the last one that is not [ErrPass]. *)
Definition recorded (errs : list (option error)) (err : option error)
    : option error :=
  fold_left (λ acc e, match e with
                      | Some e' => if is_ErrPass e' then acc else Some e'
                      | None => acc
                      end) errs err.

(** The status [ServeHTTP] writes for a classified error. *)
Definition http_status (e : Error) : Z :=
  Code (if bool_decide (e = ErrPass) then ErrNotFound else e).

(** The request passes the check at the top of [Do]. *)
Definition authorized (app : Imagor) (params : Params) : bool :=
  (Unsafe app && P_Unsafe params) || Verify params (Secret app).

End Reading.

(** The response is: headers, then this status, then this body. *)
Definition is_Header_Set (c : WCall) : Prop :=
  match c with Header_Set _ _ => True | _ => False end.

Definition status_then_body (calls : list WCall) (code : Z) (body : bytes)
    : Prop :=
  ∃ pre mid, calls = pre ++ WriteHeader code :: mid ++ [Write body]
             ∧ Forall is_Header_Set (pre ++ mid).

(** ** A concrete configuration

    Stand-ins for the parts of the package that are not in this file, and
    a few loaders, storages and processors, to run the handler on. *)
Module Fixture.

Definition errPass : Error := NewError "pass" 400.
Definition errNotFound : Error := NewError "not found" 404.
Definition errHashMismatch : Error := NewError "hash mismatch" 403.
Definition errInternal : Error := NewError "internal error" 500.

(** Modelled from the spec: [WrapError] is defined in [errors.go], which
    is not part of this file.  Section 4.1: a classified error stays what
    it is, anything else becomes an internal error with status 500. *)
Definition wrapError (err : option error) : option error :=
  match err with
  | None => None
  | Some (ErrorOf e) => Some (ErrorOf e)
  | Some Canceled => Some (ErrorOf (NewError "context canceled" 500))
  | Some (Foreign msg _) => Some (ErrorOf (NewError msg 500))
  end.

(** A parser and a signature check that are just enough to reach every
    branch: the image is the whole path, and a path is signed when it
    starts with the secret. *)
Definition parseParams (uri : string) : Params :=
  {| Path := uri;
     Image := uri;
     P_Unsafe := String.prefix "/unsafe/" uri;
     P_Meta := String.prefix "/unsafe/meta/" uri |}.

Definition verify (p : Params) (secret : string) : bool :=
  String.prefix ("/" +:+ secret +:+ "/") (Path p).

Definition marshal (v : JSONArg) : bytes :=
  match v with
  | JInfo => [Byte.x7b; Byte.x69; Byte.x7d]
  | JMeta _ => [Byte.x7b; Byte.x6d; Byte.x7d]
  | JError _ => [Byte.x7b; Byte.x65; Byte.x7d]
  end.

#[export] Instance externals : Externals := {|
  ErrPass := errPass;
  ErrNotFound := errNotFound;
  ErrHashMismatch := errHashMismatch;
  WrapError := wrapError;
  ParseParams := parseParams;
  Verify := verify;
  json_Marshal := marshal;
  DetectContentType := fun _ => "application/octet-stream";
  Itoa := fun n => pretty n
|}.

Definition empty_store : Store := {| entries := ∅; clock := 0 |}.

Definition b1 : bytes := [Byte.x01].
Definition b2 : bytes := [Byte.x02; Byte.x02].
Definition meta2 : Meta := {| ContentType := "image/jpeg" |}.

Definition loader (b : bytes) (e : option error) : Loader :=
  {| Load := fun _ => (b, e) |}.

Definition processor (b : bytes) (m : option Meta) (e : option error)
    : Processor :=
  {| Process := fun _ _ => Return b m e |}.

Definition storage (e : option error) : Storage :=
  {| Save := fun _ _ => e |}.

Definition boom : error := Foreign "boom" false.

Definition app (loaders : list Loader) (storages : list Storage)
    (processors : list Processor) (timeout : Z) : Imagor :=
  {| Unsafe := true;
     Secret := "s3cret";
     Loaders := loaders;
     Storages := storages;
     Processors := processors;
     RequestTimeout := timeout;
     CacheTTL := 60;
     Debug := false |}.

(** The configurations the statements below are run on. *)
Definition pass : option error := Some (ErrorOf errPass).

Definition app_pass_pass : Imagor :=
  app [loader [] pass; loader [] pass] [] [] 30.

Definition app_pass_then_bytes : Imagor :=
  app [loader [] pass; loader b1 None] [] [] 30.

Definition app_bytes_then_empty : Imagor :=
  app [loader b1 (Some boom); loader [] None] [] [] 30.

Definition app_load_fails : Imagor :=
  app [loader b1 (Some boom)] [] [] 30.

Definition app_fail_then_ok : Imagor :=
  app [loader b1 None] []
    [processor [] None (Some boom); processor b2 (Some meta2) None] 30.

Definition app_fail_then_pass : Imagor :=
  app [loader b1 None] []
    [processor [] None (Some boom); processor [] None pass] 30.

Definition app_all_pass : Imagor :=
  app [loader b1 None] [] [processor [] None pass] 30.

Definition app_no_timeout : Imagor :=
  app [loader b1 None] [storage None] [] 0.

(** A store whose live entry for the image holds [ErrPass]. *)
Definition pass_store : Store :=
  {| entries := {[ "/unsafe/a.jpg" :=
                     {| ent_buf := []; ent_err := pass; ent_expires := 60 |} ]};
     clock := 0 |}.

End Fixture.

(** ** Two statements in the spec's words

    These two follow the wording of the spec rather than the code; they
    are compared with the code below. *)

Section Worded.
Context `{X : Externals}.

(** "If no stage succeeds, the last non-Pass error recorded (or Pass
    itself if none) is returned." *)
Definition chain_exhaustion_as_worded : Prop :=
  ∀ app params s,
    authorized app params = true →
    (result (load app (Image params) s)).2 = None →
    Forall (λ e, e ≠ None) (stage_errors (events (Do app params s))) →
    (∀ pre e post,
       stage_errors (events (Do app params s)) = pre ++ Some e :: post →
       e ≠ ErrorOf ErrPass →
       Forall (λ e, e = Some (ErrorOf ErrPass)) post →
       (result (Do app params s)).2 = Some e)
    ∧ (Forall (λ e, e = Some (ErrorOf ErrPass))
         (stage_errors (events (Do app params s))) →
       (result (Do app params s)).2 = Some (ErrorOf ErrPass)).

(** "On error, if a classified status is available, emit that status; if
    bytes are nonetheless available, emit them anyway with that status;
    otherwise emit a structured error body." *)
Definition fallback_delivery_as_worded : Prop :=
  ∀ app uri s e c,
    uri ≠ "/" →
    (result (Do app (ParseParams uri) s)).2 = Some e →
    WrapError (Some e) = Some (ErrorOf c) →
    status_then_body (result (ServeHTTP app uri s)) (http_status c)
      (if nonempty (result (Do app (ParseParams uri) s)).1.1
       then (result (Do app (ParseParams uri) s)).1.1
       else json_Marshal (JError e)).

End Worded.

(** ** More readings of a run *)

(** The buffer each invoked processor was given, in order. *)
Definition stage_inputs (evs : list Event) : list bytes :=
  omap (λ ev, match ev with EvProcess _ input _ _ _ => Some input | _ => None end)
    evs.

(** The bytes and the error each invoked processor returned, in order. *)
Definition stage_returns (evs : list Event) : list (bytes * option error) :=
  omap (λ ev, match ev with EvProcess _ _ b _ e => Some (b, e) | _ => None end)
    evs.

(** The keys the cache was asked for, in order. *)
Definition cache_calls (evs : list Event) : list string :=
  omap (λ ev, match ev with EvCache key _ => Some key | _ => None end) evs.

(** The statuses written on the response, in order. *)
Definition statuses (calls : list WCall) : list Z :=
  omap (λ c, match c with WriteHeader code => Some code | _ => None end) calls.

(** The bodies written on the response, in order. *)
Definition bodies (calls : list WCall) : list bytes :=
  omap (λ c, match c with Write b => Some b | _ => None end) calls.

Section Carrying.
Context `{X : Externals}.

(** The buffer of [Do] after a stage that was given [buf] has returned
    [r]: the bytes of the stage when it returned them with [ErrPass],
    otherwise [buf]. *)
Definition next_input (buf : bytes) (r : bytes * option error) : bytes :=
  match r.2 with
  | Some e => if is_ErrPass e && nonempty r.1 then r.1 else buf
  | None => buf
  end.

(** The buffers given to the stages that returned [rets], one after the
    other, the first of them being given [buf]. *)
Fixpoint inputs_from (buf : bytes) (rets : list (bytes * option error))
    : list bytes :=
  match rets with
  | [] => []
  | r :: rest => buf :: inputs_from (next_input buf r) rest
  end.

(** The response ends with the length of a body in the [Content-Length]
    header and then that body; before them no body is written and at most
    one status. *)
Definition ends_with_body (calls : list WCall) : Prop :=
  ∃ pre body,
    calls = pre ++ [Header_Set "Content-Length" (Itoa (length body)); Write body]
    ∧ bodies pre = []
    ∧ (length (statuses pre) ≤ 1)%nat.

End Carrying.

(** ** Startup and shutdown

    [Processor.Startup(ctx)] and [Processor.Shutdown(ctx)] of one
    processor: the error each call returns. *)
Record Lifecycle := {
  P_Startup : option error;
  P_Shutdown : option error
}.

(** The loop shared by [Imagor.Startup] and [Imagor.Shutdown]: [call] is
    the method invoked on each processor of [app.Processors].  Next to the
    error returned stand the positions of the processors invoked. *)
Fixpoint each_processor (call : Lifecycle -> option error) (i : nat)
    (processors : list Lifecycle) : option error * list nat :=
  match processors with
  | [] => (None, [])
  | processor :: rest =>
      match call processor with
      | Some err => (Some err, [i])
      | None =>
          let r := each_processor call (S i) rest in
          (r.1, i :: r.2)
      end
  end.

Definition Startup (processors : list Lifecycle) : option error * list nat :=
  each_processor P_Startup 0 processors.

Definition Shutdown (processors : list Lifecycle) : option error * list nat :=
  each_processor P_Shutdown 0 processors.

(** ** Command-line flags (config/flags.go) *)

Module Flags.

(** [strings.Split(s, sep)] for a separator of one byte. *)
Fixpoint Split (s : string) (sep : Ascii.ascii) : list string :=
  match s with
  | EmptyString => [EmptyString]
  | String c rest =>
      if Ascii.eqb c sep then EmptyString :: Split rest sep
      else match Split rest sep with
           | field :: fields => String c field :: fields
           | [] => [String c EmptyString]
           end
  end.

(** [strings.Join(elems, sep)] *)
Fixpoint Join (elems : list string) (sep : string) : string :=
  match elems with
  | [] => EmptyString
  | [elem] => elem
  | elem :: rest => elem +:+ sep +:+ Join rest sep
  end.

(** The byte occurs in the string. *)
Fixpoint has_byte (c : Ascii.ascii) (s : string) : bool :=
  match s with
  | EmptyString => false
  | String c' rest => Ascii.eqb c' c || has_byte c rest
  end.

Section CIDR.

(** [net.IPNet], [net.ParseCIDR], of which [Set] keeps the network or the
    error, and the [String] method of a network. *)
Variable IPNet : Type.
Variable ParseCIDR : string -> IPNet + error.
Variable IPNet_String : IPNet -> string.

(** [CIDRSliceFlag.String] *)
Definition String_ (s : list IPNet) : string :=
  Join (map IPNet_String s) ",".

(** The loop of [CIDRSliceFlag.Set] over the fields; [res] is the slice
    built so far. *)
Fixpoint Set_loop (fields : list string) (res : list IPNet)
    : list IPNet + error :=
  match fields with
  | [] => inl res
  | v :: rest =>
      match ParseCIDR v with
      | inr err => inr err
      | inl network => Set_loop rest (res ++ [network])
      end
  end.

(** [CIDRSliceFlag.Set]: the flag after the call, and the error. *)
Definition Set_ (s : list IPNet) (value : string) : list IPNet * option error :=
  match Set_loop (Split value ","%char) [] with
  | inr err => (s, Some err)
  | inl res => (res, None)
  end.

End CIDR.

End Flags.

(** ** The file store (package filestore) *)

Module FileStore.

(** [strings.HasPrefix(s, prefix)] *)
Definition HasPrefix (s prefix : string) : bool := String.prefix prefix s.

(** The string without its first [n] bytes. *)
Fixpoint drop_bytes (n : nat) (s : string) : string :=
  match n, s with
  | S n, String _ rest => drop_bytes n rest
  | _, _ => s
  end.

(** [strings.TrimPrefix(s, prefix)] *)
Definition TrimPrefix (s prefix : string) : string :=
  if HasPrefix s prefix then drop_bytes (String.length prefix) s else s.

(** [strings.ReplaceAll(s, ":/", "%3A")] *)
Fixpoint ReplaceAll_colon_slash (s : string) : string :=
  match s with
  | EmptyString => EmptyString
  | String c rest =>
      match rest with
      | String c' rest' =>
          if Ascii.eqb c ":"%char && Ascii.eqb c' "/"%char
          then "%3A" +:+ ReplaceAll_colon_slash rest'
          else String c (ReplaceAll_colon_slash rest)
      | EmptyString => String c EmptyString
      end
  end.

(** The string has [sub] as a substring. *)
Fixpoint contains (sub s : string) : bool :=
  String.prefix sub s ||
  match s with
  | EmptyString => false
  | String _ rest => contains sub rest
  end.

(** [*regexp.Regexp], as far as [MatchString] goes. *)
Record Regexp := { MatchString : string -> bool }.

(** [regexp.MustCompile("/\\.")]: a slash and then a dot, anywhere. *)
Definition dotFileRegex : Regexp := {| MatchString := contains "/." |}.

Record FileStore := {
  BaseDir : string;
  PathPrefix : string;
  Blacklists : list Regexp
}.

Section Paths.

(** [path.Clean] and [filepath.Join] *)
Variable path_Clean : string -> string.
Variable filepath_Join : string -> string -> string.

(** The image as [Path] looks at it. *)
Definition normalized (image : string) : string :=
  "/" +:+ TrimPrefix (path_Clean (ReplaceAll_colon_slash image)) "/".

(** [FileStore.Path] *)
Definition Path_ (s : FileStore) (image : string) : string * bool :=
  let image := normalized image in
  if existsb (λ blacklist, MatchString blacklist image) (Blacklists s)
  then (EmptyString, false)
  else if negb (HasPrefix image (PathPrefix s)) then (EmptyString, false)
  else (filepath_Join (BaseDir s) (TrimPrefix image (PathPrefix s)), true).

End Paths.

End FileStore.

(** ** More configurations *)

Module Sample.

Definition b3 : bytes := [Byte.x03; Byte.x03; Byte.x03].

Definition app_bytes : Imagor :=
  Fixture.app [Fixture.loader Fixture.b1 None] [] [] 30.

Definition app_empty : Imagor := Fixture.app [] [] [] 30.

Definition app_pass_bytes_then_ok : Imagor :=
  Fixture.app [Fixture.loader Fixture.b1 None] []
    [Fixture.processor Fixture.b2 None Fixture.pass;
     Fixture.processor b3 (Some Fixture.meta2) None] 30.

Definition app_pass_bytes_then_fail : Imagor :=
  Fixture.app [Fixture.loader Fixture.b1 None] []
    [Fixture.processor Fixture.b2 None Fixture.pass;
     Fixture.processor b3 None (Some Fixture.boom)] 30.

Definition started : Lifecycle := {| P_Startup := None; P_Shutdown := None |}.

Definition broken : Lifecycle :=
  {| P_Startup := Some Fixture.boom; P_Shutdown := Some Fixture.boom |}.

(** A stand-in for [net.ParseCIDR]: a network is its text, and a text is
    a network when it has a slash. *)
Definition parseCIDR (v : string) : string + error :=
  if Flags.has_byte "/" v then inl v
  else inr (Foreign ("invalid CIDR address: " +:+ v) false).

(** Stand-ins for [path.Clean] and [filepath.Join] on paths that are clean
    already. *)
Definition clean (path : string) : string := path.

Definition join (dir rel : string) : string := dir +:+ "/" +:+ rel.

Definition files : FileStore.FileStore :=
  {| FileStore.BaseDir := "/data";
     FileStore.PathPrefix := "/";
     FileStore.Blacklists := [FileStore.dotFileRegex] |}.




End Sample.

(** * Properties *)

Section Properties.
Context `{X : Externals}.

(** ** The monad *)

Lemma result_bind {A B} (m : M A) (f : A -> M B) s :
  result (bind m f s) = result (f (result (m s)) (store (m s))).
Proof. reflexivity. Qed.

Lemma store_bind {A B} (m : M A) (f : A -> M B) s :
  store (bind m f s) = store (f (result (m s)) (store (m s))).
Proof. reflexivity. Qed.

Lemma events_bind {A B} (m : M A) (f : A -> M B) s :
  events (bind m f s)
  = events (m s) ++ events (f (result (m s)) (store (m s))).
Proof. reflexivity. Qed.

Lemma store_when c m s : (∀ s, store (m s) = s) → store (when c m s) = s.
Proof. intros Hm. destruct c; [apply Hm | reflexivity]. Qed.

Lemma loads_app evs1 evs2 : loads (evs1 ++ evs2) = loads evs1 ++ loads evs2.
Proof. apply omap_app. Qed.

Lemma stage_errors_app evs1 evs2 :
  stage_errors (evs1 ++ evs2) = stage_errors evs1 ++ stage_errors evs2.
Proof. apply omap_app. Qed.

Lemma spawned_app evs1 evs2 :
  spawned (evs1 ++ evs2) = spawned evs1 ++ spawned evs2.
Proof. apply omap_app. Qed.

Lemma logged_errors_app evs1 evs2 :
  logged_errors (evs1 ++ evs2) = logged_errors evs1 ++ logged_errors evs2.
Proof. apply omap_app. Qed.

(** ** The loader loop *)

Lemma nonempty_nil : nonempty [] = false.
Proof. reflexivity. Qed.

Lemma retained_snoc image ls l buf :
  retained image (ls ++ [l]) buf
  = if nonempty (Load l image).1 then (Load l image).1
    else retained image ls buf.
Proof. unfold retained. rewrite fold_left_app. reflexivity. Qed.

Lemma retained_bytesless image ls buf :
  Forall (bytesless image) ls → retained image ls buf = buf.
Proof.
  intros H. revert buf. induction H as [|l ls Hl _ IH]; intros buf; [done|].
  unfold bytesless in Hl. cbn [retained fold_left].
  rewrite Hl, nonempty_nil. apply IH.
Qed.

(** The log line of one failed loader neither loads nor spawns. *)
Lemma load_loop_log_loads app e s :
  loads (events ((if negb (is_ErrPass e) && negb (is_ErrNotFound e)
                     && negb (errors_Is_Canceled e)
                  then Logger_Error "load" (Some e)
                  else when (Debug app) (Logger_Debug "load" (Some e))) s)) = [].
Proof.
  destruct (negb (is_ErrPass e) && _ && _); [reflexivity|].
  destruct (Debug app); reflexivity.
Qed.

Lemma load_loop_log_store app e s :
  store ((if negb (is_ErrPass e) && negb (is_ErrNotFound e)
             && negb (errors_Is_Canceled e)
          then Logger_Error "load" (Some e)
          else when (Debug app) (Logger_Debug "load" (Some e))) s) = s.
Proof.
  destruct (negb (is_ErrPass e) && _ && _); [reflexivity|].
  destruct (Debug app); reflexivity.
Qed.

Lemma load_loop_store app image ls : ∀ i buf err s,
  store (load_loop app image i ls buf err s) = s.
Proof.
  induction ls as [|l ls IH]; intros i buf err s; [reflexivity|].
  cbn [load_loop]. rewrite store_bind. cbn [emit result store fst snd].
  destruct (Load l image).2 as [e|]; [|reflexivity].
  rewrite store_bind, IH. apply load_loop_log_store.
Qed.

(** While the loaders fail the loop goes on: all of them are invoked, in
    order, and the loop ends with the last non-empty buffer and the error
    of the last loader. *)
Lemma load_loop_exhausted app image ls : ∀ i buf err s,
  Forall (fails image) ls →
  result (load_loop app image i ls buf err s)
  = (retained image ls buf,
     match last ls with Some l => (Load l image).2 | None => err end)
  ∧ loads (events (load_loop app image i ls buf err s)) = seq i (length ls).
Proof.
  induction ls as [|l ls IH]; intros i buf err s Hall; [done|].
  apply Forall_cons in Hall as [Hl Hall].
  cbn [load_loop]. rewrite result_bind, events_bind, loads_app.
  cbn [emit result store events fst snd loads omap].
  unfold fails in Hl. destruct (Load l image).2 as [e|] eqn:He; [|done].
  rewrite result_bind, events_bind, loads_app, load_loop_log_loads,
    load_loop_log_store.
  destruct (IH (S i) (if nonempty (Load l image).1 then (Load l image).1 else buf)
              (Some e) s Hall) as [-> ->].
  split; [|reflexivity]. cbn [retained fold_left]. f_equal.
  rewrite last_cons. destruct (last ls); [reflexivity|]. by rewrite He.
Qed.

(** The first loader that returns a nil error ends the loop: the loaders
    up to it are the ones invoked, and none after it. *)
Lemma load_loop_success app image pre l post : ∀ i buf err s,
  Forall (fails image) pre → (Load l image).2 = None →
  result (load_loop app image i (pre ++ l :: post) buf err s)
  = (retained image (pre ++ [l]) buf, None)
  ∧ loads (events (load_loop app image i (pre ++ l :: post) buf err s))
    = seq i (S (length pre)).
Proof.
  induction pre as [|p pre IH]; intros i buf err s Hall Hl.
  - cbn [Datatypes.app load_loop]. rewrite result_bind, events_bind, loads_app.
    cbn [emit result store events fst snd loads omap]. rewrite Hl. done.
  - apply Forall_cons in Hall as [Hp Hall].
    cbn [Datatypes.app load_loop]. rewrite result_bind, events_bind, loads_app.
    cbn [emit result store events fst snd loads omap].
    unfold fails in Hp. destruct (Load p image).2 as [e|] eqn:He; [|done].
    rewrite result_bind, events_bind, loads_app, load_loop_log_loads,
      load_loop_log_store.
    destruct (IH (S i) (if nonempty (Load p image).1 then (Load p image).1 else buf)
                (Some e) s Hall Hl) as [-> ->].
    done.
Qed.

(** ** The function handed to the cache, and [load] *)

Lemma save_store app sts image buf : ∀ s, store (save app sts image buf s) = s.
Proof. induction sts as [|st sts IH]; intros s; [done|]. cbn [save]. by rewrite store_bind, IH. Qed.

Lemma save_loads app sts image buf : ∀ s,
  loads (events (save app sts image buf s)) = [].
Proof.
  induction sts as [|st sts IH]; intros s; [done|].
  cbn [save]. by rewrite events_bind, loads_app, IH.
Qed.

Lemma save_logged_errors app sts image buf : ∀ s,
  logged_errors (events (save app sts image buf s)) = [].
Proof.
  induction sts as [|st sts IH]; intros s; [done|].
  cbn [save]. by rewrite events_bind, logged_errors_app, IH.
Qed.

Lemma when_save_loads app c image buf s :
  loads (events (when c (save app (Storages app) image buf) s)) = [].
Proof. destruct c; [apply save_loads | done]. Qed.

Lemma when_save_logged_errors app c image buf s :
  logged_errors (events (when c (save app (Storages app) image buf) s)) = [].
Proof. destruct c; [apply save_logged_errors | done]. Qed.

Lemma when_save_store app c image buf s :
  store (when c (save app (Storages app) image buf) s) = s.
Proof. destruct c; [apply save_store | done]. Qed.

Lemma when_debug_loads c msg e s :
  loads (events (when c (Logger_Debug msg e) s)) = [].
Proof. by destruct c. Qed.

Lemma when_debug_logged_errors c msg e s :
  logged_errors (events (when c (Logger_Debug msg e) s)) = [].
Proof. by destruct c. Qed.

Lemma when_debug_store c msg e s : store (when c (Logger_Debug msg e) s) = s.
Proof. by destruct c. Qed.

(** What the function does once the loop has ended without an error. *)
Lemma load_func_after_success app image s buf :
  result (load_loop app image 0 (Loaders app) [] None s) = (buf, None) →
  result (load_func app image s) = (buf, None)
  ∧ loads (events (load_func app image s))
    = loads (events (load_loop app image 0 (Loaders app) [] None s)).
Proof.
  intros Hr. unfold load_func.
  rewrite result_bind, events_bind, loads_app, Hr, load_loop_store.
  cbn [fst snd]. split; [done|].
  rewrite !events_bind, !loads_app, when_debug_loads, when_save_loads.
  cbn. by rewrite app_nil_r.
Qed.

(** What it does once the loop has ended with an error. *)
Lemma load_func_after_failure app image s buf e :
  result (load_loop app image 0 (Loaders app) [] None s) = (buf, Some e) →
  result (load_func app image s)
  = (buf, Some (if is_ErrPass e then ErrorOf ErrNotFound else e))
  ∧ loads (events (load_func app image s))
    = loads (events (load_loop app image 0 (Loaders app) [] None s)).
Proof.
  intros Hr. unfold load_func.
  rewrite result_bind, events_bind, loads_app, Hr, load_loop_store.
  cbn [fst snd]. destruct (errors_Is_Canceled e) eqn:Hc; cbn [negb].
  - split; [|cbn; by rewrite app_nil_r].
    destruct e; try discriminate; reflexivity.
  - split; [done|]. cbn. by rewrite app_nil_r.
Qed.

Lemma load_func_store app image s : store (load_func app image s) = s.
Proof.
  unfold load_func. rewrite store_bind, load_loop_store.
  destruct (result _).2 as [e|].
  - by destruct (negb (errors_Is_Canceled e)).
  - by rewrite !store_bind, when_debug_store, when_save_store.
Qed.

(** On a cache miss [load] runs the function and classifies its error. *)
Lemma load_miss app image s :
  cache_get s image = None →
  result (load app image s)
  = ((result (load_func app image s)).1,
     WrapError (result (load_func app image s)).2)
  ∧ events (load app image s)
    = EvCache image false :: events (load_func app image s).
Proof.
  intros Hmiss. unfold load, DoBytes.
  rewrite result_bind, events_bind, Hmiss. cbn. by rewrite app_nil_r.
Qed.

(** On a cache hit [load] returns the entry and no loader is invoked. *)
Lemma load_hit app image s ent :
  cache_get s image = Some ent →
  result (load app image s) = (ent_buf ent, WrapError (ent_err ent))
  ∧ events (load app image s) = [EvCache image true]
  ∧ store (load app image s) = s.
Proof.
  intros Hhit. unfold load, DoBytes.
  rewrite result_bind, events_bind, store_bind, Hhit. done.
Qed.

(** The loop never logs [ErrPass] at error level. *)
Lemma load_loop_logged_errors app image ls : ∀ i buf err s,
  Forall (λ e, e ≠ Some (ErrorOf ErrPass))
    (logged_errors (events (load_loop app image i ls buf err s))).
Proof.
  induction ls as [|l ls IH]; intros i buf err s; [by constructor|].
  cbn [load_loop]. rewrite events_bind, logged_errors_app.
  apply Forall_app. split; [by constructor|].
  cbn [emit result store fst snd].
  destruct (Load l image).2 as [e|]; [|by constructor].
  rewrite events_bind, logged_errors_app. apply Forall_app. split; [|apply IH].
  destruct (is_ErrPass e) eqn:Hp; cbn [negb andb].
  - destruct (Debug app); by constructor.
  - destruct (negb (is_ErrNotFound e) && negb (errors_Is_Canceled e)).
    + constructor; [|by constructor].
      apply bool_decide_eq_false in Hp. congruence.
    + destruct (Debug app); by constructor.
Qed.

(** The first loader that returns a nil error decides what the function
    and [load] return. *)
Lemma load_first_success app image s pre l post :
  cache_get s image = None →
  Loaders app = pre ++ l :: post →
  Forall (fails image) pre →
  (Load l image).2 = None →
  loads (events (load_func app image s)) = seq 0 (S (length pre))
  ∧ result (load_func app image s) = (retained image (pre ++ [l]) [], None)
  ∧ result (load app image s)
    = (retained image (pre ++ [l]) [], WrapError None)
  ∧ Forall (λ e, e ≠ Some (ErrorOf ErrPass))
      (logged_errors (events (load_func app image s))).
Proof.
  intros Hmiss Hls Hall Hl.
  destruct (load_loop_success app image pre l post 0 [] None s Hall Hl)
    as [Hres Hloads].
  rewrite <- Hls in Hres, Hloads.
  destruct (load_func_after_success app image s _ Hres) as [Hf Hlf].
  destruct (load_miss app image s Hmiss) as [Hload _].
  rewrite Hload, Hlf, Hloads, Hf. repeat split; try done.
  unfold load_func.
  rewrite events_bind, logged_errors_app, Hres, load_loop_store.
  apply Forall_app. split; [apply load_loop_logged_errors|].
  cbn [fst snd].
  rewrite !events_bind, !logged_errors_app, when_debug_logged_errors,
    when_save_logged_errors.
  by constructor.
Qed.

(** C4: Loader chain exhaustion.  When every loader returns an error, all
    of them have been invoked in order and the function handed to the
    cache returns the error of the last loader, with [ErrPass] turned into
    [ErrNotFound] and any other error as it is; [load], on a cache miss,
    returns that error through [WrapError]. *)
Theorem load_chain_exhaustion app image s l e :
  cache_get s image = None →
  Forall (fails image) (Loaders app) →
  last (Loaders app) = Some l →
  (Load l image).2 = Some e →
  (result (load_func app image s)).2
  = Some (if is_ErrPass e then ErrorOf ErrNotFound else e)
  ∧ loads (events (load_func app image s)) = seq 0 (length (Loaders app))
  ∧ (result (load app image s)).2
    = WrapError (Some (if is_ErrPass e then ErrorOf ErrNotFound else e)).
Proof.
  intros Hmiss Hall Hlast He.
  destruct (load_loop_exhausted app image (Loaders app) 0 [] None s Hall)
    as [Hres Hloads].
  rewrite Hlast, He in Hres.
  destruct (load_func_after_failure app image s _ e Hres) as [Hf Hl].
  destruct (load_miss app image s Hmiss) as [Hload _].
  rewrite Hload, Hl, Hloads, Hf. done.
Qed.

(** C5: Loader chain fallback.  The loaders are invoked in order, and only
    a nil error ends the chain: up to the first loader that returns one
    and none after it, or, when every loader returns an error, all of
    them.  The bytes returned are in both cases the last non-empty ones
    that any invoked loader returned, with or without an error: with the
    nil error of the loader that ended the chain, or with the error of
    the last loader, [ErrPass] turned into [ErrNotFound].  When a loader
    ends the chain, [ErrPass] has not been logged at error level.  With
    [A(Pass), B(bytes, nil)] the result is B's bytes and a nil error. *)
Theorem load_chain_fallback app image s :
  cache_get s image = None →
  (∀ pre l post,
     Loaders app = pre ++ l :: post →
     Forall (fails image) pre →
     (Load l image).2 = None →
     loads (events (load_func app image s)) = seq 0 (S (length pre))
     ∧ result (load_func app image s) = (retained image (pre ++ [l]) [], None)
     ∧ result (load app image s)
       = (retained image (pre ++ [l]) [], WrapError None)
     ∧ Forall (λ e, e ≠ Some (ErrorOf ErrPass))
         (logged_errors (events (load_func app image s)))
     ∧ (Forall (bytesless image) pre →
        retained image (pre ++ [l]) [] = (Load l image).1))
  ∧ (∀ l e,
       Forall (fails image) (Loaders app) →
       last (Loaders app) = Some l →
       (Load l image).2 = Some e →
       loads (events (load_func app image s)) = seq 0 (length (Loaders app))
       ∧ result (load_func app image s)
         = (retained image (Loaders app) [],
            Some (if is_ErrPass e then ErrorOf ErrNotFound else e))
       ∧ result (load app image s)
         = (retained image (Loaders app) [],
            WrapError (Some (if is_ErrPass e then ErrorOf ErrNotFound else e))))
  ∧ (∀ ls pre a post,
       ls = pre ++ a :: post →
       nonempty (Load a image).1 = true →
       Forall (bytesless image) post →
       retained image ls [] = (Load a image).1)
  ∧ (∀ ls, Forall (bytesless image) ls → retained image ls [] = []).
Proof.
  intros Hmiss. split; [|split; [|split]].
  - intros pre l post Hls Hall Hl.
    destruct (load_first_success app image s pre l post Hmiss Hls Hall Hl)
      as (Hloads & Hf & Hload & Hlog).
    repeat split; try done.
    intros Hb. rewrite retained_snoc, (retained_bytesless _ _ _ Hb).
    destruct (Load l image).1; reflexivity.
  - intros l e Hall Hlast He.
    destruct (load_loop_exhausted app image (Loaders app) 0 [] None s Hall)
      as [Hres Hloads].
    rewrite Hlast, He in Hres.
    destruct (load_func_after_failure app image s _ e Hres) as [Hf Hl].
    destruct (load_miss app image s Hmiss) as [Hload _].
    rewrite Hload, Hl, Hloads, Hf. done.
  - intros ls pre a post -> Ha Hpost. unfold retained.
    rewrite fold_left_app. cbn [fold_left]. rewrite Ha.
    apply (retained_bytesless image post _ Hpost).
  - intros ls Hls. apply (retained_bytesless image ls _ Hls).
Qed.

(** C10: Loader chain empty-success edge.  When a loader returns non-empty
    bytes with an error, no loader after it returns bytes, and a later one
    returns empty bytes with a nil error, the bytes returned are those of
    the earlier loader and the error is nil. *)
Theorem load_chain_empty_success app image s pre a mid l post :
  cache_get s image = None →
  Loaders app = pre ++ a :: mid ++ l :: post →
  Forall (fails image) (pre ++ a :: mid) →
  nonempty (Load a image).1 = true →
  Forall (bytesless image) mid →
  Load l image = ([], None) →
  result (load_func app image s) = ((Load a image).1, None)
  ∧ result (load app image s) = ((Load a image).1, WrapError None).
Proof.
  intros Hmiss Hls Hall Ha Hmid Hl.
  assert (Hls' : Loaders app = (pre ++ a :: mid) ++ l :: post)
    by (rewrite Hls, <- app_assoc; reflexivity).
  assert (Hl2 : (Load l image).2 = None) by (rewrite Hl; reflexivity).
  destruct (load_first_success app image s _ l post Hmiss Hls' Hall Hl2)
    as (_ & Hf & Hload & _).
  rewrite Hload, Hf.
  assert (Hret : retained image ((pre ++ a :: mid) ++ [l]) [] = (Load a image).1).
  { rewrite retained_snoc, Hl. cbn [fst]. rewrite nonempty_nil.
    unfold retained. rewrite fold_left_app. cbn [fold_left]. rewrite Ha.
    apply (retained_bytesless image mid _ Hmid). }
  by rewrite Hret.
Qed.

(** ** Authorization *)

Lemma Do_unauthorized app params s :
  authorized app params = false →
  Do app params s
  = ([], None, Some (ErrorOf ErrHashMismatch), s,
     if Debug app then [EvLog DebugLevel "hash mismatch" None] else []).
Proof.
  unfold authorized, Do. intros Hauth.
  apply orb_false_iff in Hauth as [-> ->]. by destruct (Debug app).
Qed.

Lemma Do_authorized app params s :
  authorized app params = true →
  Do app params s
  = (r <- load app (Image params) ;;
     match r.2 with
     | Some e => Logger_Info "load" (Some e) ;; ret (r.1, None, Some e)
     | None => Do_loop app params 0 (Processors app) r.1 None
     end) s.
Proof.
  unfold authorized, Do. intros Hauth.
  apply orb_true_iff in Hauth as [-> | ->]; [done|].
  by rewrite andb_false_r.
Qed.

(** C3: Authorization precedes loading.  When the server is not in unsafe
    mode or the request does not declare itself unsafe, and the signature
    check fails, [Do] returns [ErrHashMismatch] with no bytes and no
    metadata; it leaves the cache as it was and causes nothing but, in
    debug mode, one debug log line: no cache call, no loader call, no
    processor call and no goroutine. *)
Theorem Do_hash_mismatch app params s :
  Unsafe app = false ∨ P_Unsafe params = false →
  Verify params (Secret app) = false →
  result (Do app params s) = ([], None, Some (ErrorOf ErrHashMismatch))
  ∧ store (Do app params s) = s
  ∧ events (Do app params s)
    = (if Debug app then [EvLog DebugLevel "hash mismatch" None] else [])
  ∧ loads (events (Do app params s)) = []
  ∧ Forall (λ ev, ∀ key hit, ev ≠ EvCache key hit) (events (Do app params s)).
Proof.
  intros Hunsafe Hverify.
  rewrite Do_unauthorized.
  - unfold result, store, events. cbn [fst snd].
    destruct (Debug app); repeat split; try done; by repeat constructor.
  - unfold authorized. rewrite Hverify, orb_false_r.
    destruct Hunsafe as [-> | ->]; [done | apply andb_false_r].
Qed.

(** ** The processor loop *)

Lemma stage_errors_below evs :
  Forall below_processors evs → stage_errors evs = [].
Proof.
  induction 1 as [|ev evs Hev _ IH]; [done|]. by destruct ev.
Qed.

Lemma stage_outputs_below evs :
  Forall below_processors evs → stage_outputs evs = [].
Proof.
  induction 1 as [|ev evs Hev _ IH]; [done|]. by destruct ev.
Qed.

Lemma stage_outputs_app evs1 evs2 :
  stage_outputs (evs1 ++ evs2) = stage_outputs evs1 ++ stage_outputs evs2.
Proof. apply omap_app. Qed.

Lemma load_loop_below app image ls : ∀ i buf err s,
  Forall below_processors (events (load_loop app image i ls buf err s)).
Proof.
  induction ls as [|l ls IH]; intros i buf err s; [by constructor|].
  cbn [load_loop]. rewrite events_bind. apply Forall_app.
  split; [by repeat constructor|].
  cbn [emit result store fst snd].
  destruct (Load l image).2 as [e|]; [|by constructor].
  rewrite events_bind. apply Forall_app. split; [|apply IH].
  destruct (negb (is_ErrPass e) && _ && _); [by repeat constructor|].
  destruct (Debug app); by repeat constructor.
Qed.

Lemma save_below app sts image buf : ∀ s,
  Forall below_processors (events (save app sts image buf s)).
Proof.
  induction sts as [|st sts IH]; intros s; [by constructor|].
  cbn [save]. rewrite events_bind. apply Forall_app.
  split; [by repeat constructor | apply IH].
Qed.

Lemma load_func_below app image s :
  Forall below_processors (events (load_func app image s)).
Proof.
  unfold load_func. rewrite events_bind. apply Forall_app.
  split; [apply load_loop_below|].
  destruct (result _).2 as [e|].
  - destruct (negb (errors_Is_Canceled e)); by repeat constructor.
  - rewrite !events_bind. repeat (apply Forall_app; split).
    + destruct (Debug app); by repeat constructor.
    + destruct (0 <? length (Storages app))%nat;
        [apply save_below | by constructor].
    + by constructor.
Qed.

Lemma load_events app image s :
  events (load app image s)
  = match cache_get s image with
    | Some _ => [EvCache image true]
    | None => EvCache image false :: events (load_func app image s)
    end.
Proof.
  unfold load, DoBytes. rewrite events_bind.
  destruct (cache_get s image); cbn; by rewrite ?app_nil_r.
Qed.

Lemma load_below app image s :
  Forall below_processors (events (load app image s)).
Proof.
  rewrite load_events. destruct (cache_get s image); [by repeat constructor|].
  constructor; [done | apply load_func_below].
Qed.

Lemma run_Process_below app p : ∀ s,
  Forall below_processors (events (run_Process (load app) p s)).
Proof.
  induction p as [b m e | image k IH]; intros s; [by constructor|].
  cbn [run_Process]. rewrite events_bind. apply Forall_app.
  split; [apply load_below | apply IH].
Qed.

Lemma load_stage_errors app image s :
  stage_errors (events (load app image s)) = [].
Proof. apply stage_errors_below, load_below. Qed.

Lemma run_Process_stage_errors app p s :
  stage_errors (events (run_Process (load app) p s)) = [].
Proof. apply stage_errors_below, run_Process_below. Qed.

Lemma when_debug_stage_errors c msg e s :
  stage_errors (events (when c (Logger_Debug msg e) s)) = [].
Proof. by destruct c. Qed.

Lemma Logger_Error_stage_errors msg e s :
  stage_errors (events (Logger_Error msg e s)) = [].
Proof. reflexivity. Qed.

Lemma Logger_Error_store msg e s : store (Logger_Error msg e s) = s.
Proof. reflexivity. Qed.

Lemma recorded_cons e errs err :
  recorded (e :: errs) err
  = recorded errs match e with
                  | Some e' => if is_ErrPass e' then err else Some e'
                  | None => err
                  end.
Proof. reflexivity. Qed.

Lemma recorded_app errs1 errs2 err :
  recorded (errs1 ++ errs2) err = recorded errs2 (recorded errs1 err).
Proof. apply fold_left_app. Qed.

Lemma recorded_all_pass errs err :
  Forall (λ e, e = Some (ErrorOf ErrPass)) errs → recorded errs err = err.
Proof.
  intros H. revert err. induction H as [|e errs -> _ IH]; intros err; [done|].
  rewrite recorded_cons. unfold is_ErrPass.
  rewrite bool_decide_eq_true_2 by done. apply IH.
Qed.

(** Whatever the stages return, the error [Do] ends with is the one
    recorded from the errors they returned: the loop never resets it. *)
Lemma Do_loop_recorded app params ps : ∀ i buf err s,
  (result (Do_loop app params i ps buf err s)).2
  = recorded (stage_errors (events (Do_loop app params i ps buf err s))) err.
Proof.
  induction ps as [|p ps IH]; intros i buf err s; [done|].
  cbn [Do_loop].
  rewrite result_bind, events_bind, stage_errors_app, run_Process_stage_errors.
  set (rp := run_Process (load app) (Process p buf params) s).
  rewrite result_bind, events_bind, stage_errors_app.
  cbn [emit result store events fst snd].
  fold (result rp). fold (store rp).
  change (stage_errors [EvProcess i buf (result rp).1.1 (result rp).1.2 (result rp).2])
    with [(result rp).2].
  cbn [Datatypes.app]. rewrite recorded_cons.
  destruct (result rp).2 as [e|] eqn:He.
  - destruct (is_ErrPass e) eqn:Hp.
    + rewrite result_bind, events_bind, stage_errors_app,
        when_debug_stage_errors, when_debug_store.
      apply IH.
    + rewrite result_bind, events_bind, stage_errors_app. apply IH.
  - rewrite result_bind, events_bind, stage_errors_app, when_debug_stage_errors.
    reflexivity.
Qed.

(** While the stages fail the loop goes on to the last of them, and no
    metadata is returned. *)
Lemma Do_loop_exhausted app params ps : ∀ i buf err s,
  Forall (λ e, e ≠ None)
    (stage_errors (events (Do_loop app params i ps buf err s))) →
  (result (Do_loop app params i ps buf err s)).1.2 = None
  ∧ length (stage_errors (events (Do_loop app params i ps buf err s)))
    = length ps.
Proof.
  induction ps as [|p ps IH]; intros i buf err s; [done|].
  cbn [Do_loop].
  rewrite result_bind, events_bind, stage_errors_app, run_Process_stage_errors.
  set (rp := run_Process (load app) (Process p buf params) s).
  rewrite result_bind, events_bind, stage_errors_app.
  cbn [emit result store events fst snd].
  fold (result rp). fold (store rp).
  change (stage_errors [EvProcess i buf (result rp).1.1 (result rp).1.2 (result rp).2])
    with [(result rp).2].
  cbn [Datatypes.app length]. intros Hall.
  apply Forall_cons in Hall as [He Hall].
  destruct (result rp).2 as [e|]; [|done].
  destruct (is_ErrPass e).
  - rewrite result_bind, events_bind, stage_errors_app,
      when_debug_stage_errors, when_debug_store in *.
    cbn [Datatypes.app] in *.
    destruct (IH _ _ _ _ Hall) as [Hm Hl]. by rewrite Hm, Hl.
  - rewrite result_bind, events_bind, stage_errors_app,
      Logger_Error_stage_errors, Logger_Error_store in *.
    cbn [Datatypes.app] in *.
    destruct (IH _ _ _ _ Hall) as [Hm Hl]. by rewrite Hm, Hl.
Qed.

Lemma when_debug_stage_outputs c msg e s :
  stage_outputs (events (when c (Logger_Debug msg e) s)) = [].
Proof. by destruct c. Qed.

(** The first stage that returns a nil error ends the loop: it is the last
    stage invoked, its bytes and metadata are what the loop returns, and
    the error returned with them is the one recorded from the stages
    before it. *)
Lemma Do_loop_first_success app params ps : ∀ i buf err s,
  None ∈ stage_errors (events (Do_loop app params i ps buf err s)) →
  ∃ pre,
    stage_errors (events (Do_loop app params i ps buf err s)) = pre ++ [None]
    ∧ Forall (λ e, e ≠ None) pre
    ∧ last (stage_outputs (events (Do_loop app params i ps buf err s)))
      = Some (result (Do_loop app params i ps buf err s)).1
    ∧ (result (Do_loop app params i ps buf err s)).2 = recorded pre err.
Proof.
  induction ps as [|p ps IH]; intros i buf err s.
  { intros Hin. by apply elem_of_nil in Hin. }
  cbn [Do_loop].
  rewrite result_bind, events_bind, stage_errors_app, stage_outputs_app,
    run_Process_stage_errors,
    (stage_outputs_below _ (run_Process_below app _ s)).
  set (rp := run_Process (load app) (Process p buf params) s).
  rewrite result_bind, events_bind, stage_errors_app, stage_outputs_app.
  cbn [emit result store events fst snd].
  fold (result rp). fold (store rp).
  change (stage_errors [EvProcess i buf (result rp).1.1 (result rp).1.2 (result rp).2])
    with [(result rp).2].
  change (stage_outputs [EvProcess i buf (result rp).1.1 (result rp).1.2 (result rp).2])
    with [((result rp).1.1, (result rp).1.2)].
  cbn [Datatypes.app].
  destruct (result rp).2 as [e|] eqn:He.
  - intros Hin. apply elem_of_cons in Hin as [? | Hin]; [done|].
    destruct (is_ErrPass e) eqn:Hp.
    + rewrite result_bind, events_bind, stage_errors_app, stage_outputs_app,
        when_debug_stage_errors, when_debug_stage_outputs, when_debug_store in *.
      cbn [Datatypes.app] in *.
      destruct (IH _ _ _ _ Hin) as (pre & Herrs & Hpre & Hout & Hrec).
      exists (Some e :: pre). rewrite Herrs, last_cons, Hout, Hrec.
      split; [done|]. split; [by constructor|]. split; [done|].
      by rewrite recorded_cons, Hp.
    + rewrite result_bind, events_bind, stage_errors_app, stage_outputs_app,
        Logger_Error_stage_errors, Logger_Error_store in *.
      change (stage_outputs (events (Logger_Error "process" (Some e) (store rp))))
        with (@nil (bytes * option Meta)) in *.
      cbn [Datatypes.app] in *.
      destruct (IH _ _ _ _ Hin) as (pre & Herrs & Hpre & Hout & Hrec).
      exists (Some e :: pre). rewrite Herrs, last_cons, Hout, Hrec.
      split; [done|]. split; [by constructor|]. split; [done|].
      by rewrite recorded_cons, Hp.
  - intros _. exists [].
    rewrite result_bind, events_bind, stage_errors_app, stage_outputs_app,
      when_debug_stage_errors, when_debug_stage_outputs.
    split; [done|]. split; [by constructor|]. done.
Qed.

(** ** The processor chain in [Do] *)

Lemma Do_after_load app params s :
  authorized app params = true →
  (result (load app (Image params) s)).2 = None →
  result (Do app params s)
  = result (Do_loop app params 0 (Processors app)
              (result (load app (Image params) s)).1 None
              (store (load app (Image params) s)))
  ∧ stage_errors (events (Do app params s))
    = stage_errors (events (Do_loop app params 0 (Processors app)
                              (result (load app (Image params) s)).1 None
                              (store (load app (Image params) s)))).
Proof.
  intros Hauth Hload. rewrite (Do_authorized _ _ _ Hauth).
  rewrite result_bind, events_bind, stage_errors_app, load_stage_errors, Hload.
  done.
Qed.

(** C2: Processor chain exhaustion.  When [Do] has loaded the image and no
    stage returns a nil error, every stage is invoked, no metadata is
    returned, and [Do] returns the last error a stage returned that is not
    [ErrPass]; when every stage returned [ErrPass], [Do] returns a nil
    error. *)
Theorem Do_chain_exhaustion app params s :
  authorized app params = true →
  (result (load app (Image params) s)).2 = None →
  Forall (λ e, e ≠ None) (stage_errors (events (Do app params s))) →
  (∀ pre e post,
     stage_errors (events (Do app params s)) = pre ++ Some e :: post →
     e ≠ ErrorOf ErrPass →
     Forall (λ e, e = Some (ErrorOf ErrPass)) post →
     (result (Do app params s)).2 = Some e)
  ∧ (Forall (λ e, e = Some (ErrorOf ErrPass))
       (stage_errors (events (Do app params s))) →
     (result (Do app params s)).2 = None)
  ∧ (result (Do app params s)).1.2 = None
  ∧ length (stage_errors (events (Do app params s)))
    = length (Processors app).
Proof.
  intros Hauth Hload Hfail.
  destruct (Do_after_load app params s Hauth Hload) as [Hres Herrs].
  rewrite Hres, Herrs in *. rewrite Do_loop_recorded.
  destruct (Do_loop_exhausted _ _ _ _ _ _ _ Hfail) as [Hmeta Hlen].
  repeat split; try done.
  - intros pre e post -> He Hpost.
    rewrite recorded_app, recorded_cons, (recorded_all_pass _ _ Hpost).
    unfold is_ErrPass. by rewrite bool_decide_eq_false_2.
  - intros Hall. by rewrite (recorded_all_pass _ _ Hall).
Qed.

Lemma recorded_not_pass errs : ∀ err,
  err ≠ Some (ErrorOf ErrPass) → recorded errs err ≠ Some (ErrorOf ErrPass).
Proof.
  induction errs as [|e errs IH]; intros err Herr; [done|].
  rewrite recorded_cons. apply IH.
  destruct e as [e|]; [|done].
  destruct (is_ErrPass e) eqn:Hp; [done|].
  apply bool_decide_eq_false in Hp. congruence.
Qed.

(** [Do] never returns [ErrPass] together with metadata. *)
Lemma Do_pass_no_meta app params s :
  (result (Do app params s)).2 = Some (ErrorOf ErrPass) →
  (result (Do app params s)).1.2 = None.
Proof.
  destruct (authorized app params) eqn:Hauth.
  - rewrite (Do_authorized _ _ _ Hauth), result_bind.
    destruct (result (load app (Image params) s)).2 as [e|]; [done|].
    rewrite Do_loop_recorded. intros Hpass.
    by apply recorded_not_pass in Hpass.
  - by rewrite (Do_unauthorized _ _ _ Hauth).
Qed.

(** ** The response *)

Lemma ServeHTTP_result app uri s :
  uri ≠ "/" →
  result (ServeHTTP app uri s)
  = write_result (ParseParams uri) (result (Do app (ParseParams uri) s)).
Proof.
  intros Huri. unfold ServeHTTP. rewrite bool_decide_eq_false_2 by done.
  rewrite !result_bind, when_debug_store. reflexivity.
Qed.

(** The error branch of [ServeHTTP], when the metadata-only branch does
    not answer the request first. *)
Lemma write_result_error params buf meta e c :
  WrapError (Some e) = Some (ErrorOf c) →
  meta = None ∨ P_Meta params = false →
  status_then_body (write_result params (buf, meta, Some e)) (http_status c)
    (if nonempty buf then buf else json_Marshal (JError e)).
Proof.
  intros Hwrap Hmeta. unfold write_result, write_status, http_status.
  cbn [fst snd]. rewrite Hwrap. fold (nonempty buf).
  set (code := Code (if bool_decide (c = ErrPass) then ErrNotFound else c)).
  assert (Hshape : ∀ pre, Forall is_Header_Set pre →
    status_then_body
      (pre ++ [WriteHeader code] ++
       (if nonempty buf
        then [Header_Set "Content-Length" (Itoa (length buf)); Write buf]
        else resJSON (JError e)))
      code (if nonempty buf then buf else json_Marshal (JError e))).
  { intros pre Hpre. destruct (nonempty buf).
    - exists pre, [Header_Set "Content-Length" (Itoa (length buf))].
      split; [done|]. apply Forall_app. split; [done | by repeat constructor].
    - exists pre, [Header_Set "Content-Type" "application/json";
                   Header_Set "Content-Length"
                     (Itoa (length (json_Marshal (JError e))))].
      split; [done|]. apply Forall_app. split; [done | by repeat constructor]. }
  destruct meta as [m|].
  - destruct Hmeta as [? | ->]; [done|].
    apply (Hshape [Header_Set "Content-Type" (ContentType m)]).
    by repeat constructor.
  - destruct (nonempty buf) eqn:Hb.
    + apply (Hshape [Header_Set "Content-Type" (DetectContentType buf)]).
      by repeat constructor.
    + apply (Hshape []). constructor.
Qed.

(** When the result of [Do] for a request carries [ErrPass], which
    [WrapError] leaves as it is, the only status [ServeHTTP] writes is
    that of [ErrNotFound]; the body that follows is the buffer or, when
    the buffer is empty, the JSON form of the error [Do] returned, which
    is [ErrPass] itself. *)
Theorem ServeHTTP_pass_is_not_found app uri s :
  uri ≠ "/" →
  WrapError (Some (ErrorOf ErrPass)) = Some (ErrorOf ErrPass) →
  (result (Do app (ParseParams uri) s)).2 = Some (ErrorOf ErrPass) →
  status_then_body (result (ServeHTTP app uri s)) (Code ErrNotFound)
    (if nonempty (result (Do app (ParseParams uri) s)).1.1
     then (result (Do app (ParseParams uri) s)).1.1
     else json_Marshal (JError (ErrorOf ErrPass))).
Proof.
  intros Huri Hwrap Hpass.
  pose proof (Do_pass_no_meta _ _ _ Hpass) as Hmeta.
  rewrite (ServeHTTP_result _ _ _ Huri).
  destruct (result (Do app (ParseParams uri) s)) as [[buf meta] err].
  cbn [fst snd] in *. subst.
  pose proof (write_result_error (ParseParams uri) buf None _ _ Hwrap
                (or_introl eq_refl)) as H.
  unfold http_status in H. by rewrite bool_decide_eq_true_2 in H.
Qed.

(** When the result of [Do] for a request is a classified error with no
    metadata, or the request is not one for metadata only, [ServeHTTP]
    writes the status of the error, that of [ErrNotFound] for [ErrPass],
    and then the buffer as the body; when the buffer is empty the body is
    the JSON form of the error. *)
Theorem ServeHTTP_fallback_delivery app uri s e c :
  uri ≠ "/" →
  (result (Do app (ParseParams uri) s)).2 = Some e →
  WrapError (Some e) = Some (ErrorOf c) →
  (result (Do app (ParseParams uri) s)).1.2 = None
  ∨ P_Meta (ParseParams uri) = false →
  status_then_body (result (ServeHTTP app uri s)) (http_status c)
    (if nonempty (result (Do app (ParseParams uri) s)).1.1
     then (result (Do app (ParseParams uri) s)).1.1
     else json_Marshal (JError e)).
Proof.
  intros Huri He Hwrap Hmeta.
  rewrite (ServeHTTP_result _ _ _ Huri).
  destruct (result (Do app (ParseParams uri) s)) as [[buf meta] err].
  cbn [fst snd] in *. subst. by apply write_result_error.
Qed.

(** ** The goroutines of [save] *)

(** Every goroutine of [save] has a callable [cancel] exactly when the
    request timeout is positive. *)
Lemma save_spawned app sts image buf : ∀ s,
  spawned (events (save app sts image buf s))
  = map (λ st, {| go_storage := st; go_image := image; go_buf := buf;
                  go_cancel := if 0 <? RequestTimeout app
                                 then Some (CancelTimeout (RequestTimeout app))
                                 else None |}) sts.
Proof.
  induction sts as [|st sts IH]; intros s; [done|].
  cbn [save]. rewrite events_bind, spawned_app, IH. reflexivity.
Qed.

(** Without a request timeout every goroutine of [save] ends in the call
    of a nil function. *)
Lemma save_goroutines_panic app sts image buf s :
  RequestTimeout app ≤ 0 →
  Forall (λ t, (save_goroutine app t).2 = NilFuncPanic)
    (spawned (events (save app sts image buf s))).
Proof.
  intros Hto. rewrite save_spawned. apply Forall_map, Forall_forall.
  intros st _. unfold save_goroutine. cbn [snd go_cancel].
  by rewrite (proj2 (Z.ltb_ge 0 (RequestTimeout app)) Hto).
Qed.

End Properties.

(** * Further properties of the handler *)

Section Further.
Context `{X : Externals}.

(** ** [Do] *)

Lemma Do_after_load_failure app params s e :
  authorized app params = true →
  (result (load app (Image params) s)).2 = Some e →
  result (Do app params s) = ((result (load app (Image params) s)).1, None, Some e)
  ∧ events (Do app params s)
    = events (load app (Image params) s) ++ [EvLog InfoLevel "load" (Some e)]
  ∧ store (Do app params s) = store (load app (Image params) s).
Proof.
  intros Hauth Hload. rewrite (Do_authorized _ _ _ Hauth).
  rewrite result_bind, events_bind, store_bind, Hload. done.
Qed.

Lemma Do_stage_outputs app params s :
  authorized app params = true →
  (result (load app (Image params) s)).2 = None →
  stage_outputs (events (Do app params s))
  = stage_outputs (events (Do_loop app params 0 (Processors app)
                             (result (load app (Image params) s)).1 None
                             (store (load app (Image params) s)))).
Proof.
  intros Hauth Hload.
  by rewrite (Do_authorized _ _ _ Hauth), events_bind, stage_outputs_app,
    (stage_outputs_below _ (load_below _ _ _)), Hload.
Qed.

Lemma Do_stops_at_success app params s :
  authorized app params = true →
  (result (load app (Image params) s)).2 = None →
  None ∈ stage_errors (events (Do app params s)) →
  ∃ pre,
    stage_errors (events (Do app params s)) = pre ++ [None]
    ∧ Forall (λ e, e ≠ None) pre
    ∧ last (stage_outputs (events (Do app params s)))
      = Some (result (Do app params s)).1
    ∧ (result (Do app params s)).2 = recorded pre None.
Proof.
  intros Hauth Hload.
  destruct (Do_after_load app params s Hauth Hload) as [Hres Herrs].
  rewrite (Do_stage_outputs _ _ _ Hauth Hload), Hres, Herrs.
  apply Do_loop_first_success.
Qed.

(** X1: When [load] fails, [Do] stops there: it returns the bytes and the
    error of [load] with no metadata, logs the error at info level, and
    invokes no processor. *)
Theorem Do_load_failure app params s e :
  authorized app params = true →
  (result (load app (Image params) s)).2 = Some e →
  result (Do app params s) = ((result (load app (Image params) s)).1, None, Some e)
  ∧ events (Do app params s)
    = events (load app (Image params) s) ++ [EvLog InfoLevel "load" (Some e)]
  ∧ stage_errors (events (Do app params s)) = []
  ∧ store (Do app params s) = store (load app (Image params) s).
Proof.
  intros Hauth Hload.
  destruct (Do_after_load_failure _ _ _ _ Hauth Hload) as (Hres & Hev & Hst).
  repeat split; try done.
  rewrite Hev, stage_errors_app, load_stage_errors. reflexivity.
Qed.

(** X2: The chain of processors stops at the first stage that returns a
    nil error: no stage is invoked after it, the bytes and the metadata
    [Do] returns are those of that stage, and the error [Do] returns is
    the last error other than [ErrPass] that a stage before it
    returned, nil when there is none. *)
Theorem Do_stops_at_first_success app params s :
  authorized app params = true →
  (result (load app (Image params) s)).2 = None →
  None ∈ stage_errors (events (Do app params s)) →
  ∃ pre,
    stage_errors (events (Do app params s)) = pre ++ [None]
    ∧ Forall (λ e, e ≠ None) pre
    ∧ last (stage_outputs (events (Do app params s)))
      = Some (result (Do app params s)).1
    ∧ (result (Do app params s)).2 = recorded pre None.
Proof. apply Do_stops_at_success. Qed.

(** X3: [Do] returns metadata only when a stage has returned a nil error,
    and the metadata and the bytes are then those of that stage. *)
Theorem Do_metadata_only_on_success app params s m :
  (result (Do app params s)).1.2 = Some m →
  None ∈ stage_errors (events (Do app params s))
  ∧ last (stage_outputs (events (Do app params s)))
    = Some ((result (Do app params s)).1.1, Some m).
Proof.
  intros Hmeta.
  destruct (authorized app params) eqn:Hauth;
    [|by rewrite (Do_unauthorized _ _ _ Hauth) in Hmeta].
  destruct (result (load app (Image params) s)).2 as [e|] eqn:Hload.
  { destruct (Do_after_load_failure _ _ _ _ Hauth Hload) as [Hres _].
    by rewrite Hres in Hmeta. }
  assert (Hin : None ∈ stage_errors (events (Do app params s))).
  { destruct (decide (None ∈ stage_errors (events (Do app params s))))
      as [|Hnot]; [done|].
    destruct (Do_after_load app params s Hauth Hload) as [Hres Herrs].
    destruct (Do_loop_exhausted app params (Processors app) 0
                (result (load app (Image params) s)).1 None
                (store (load app (Image params) s))) as [Hnone _].
    - rewrite <- Herrs. apply Forall_forall. intros e He ->. done.
    - rewrite <- Hres, Hmeta in Hnone. done. }
  split; [exact Hin|].
  destruct (Do_stops_at_success app params s Hauth Hload Hin)
    as (pre & _ & _ & Hout & _).
  rewrite Hout. destruct (result (Do app params s)) as [[b m'] e].
  cbn [fst snd] in *. by subst.
Qed.

(** X4: [Do] asks the cache, for the image of the request and before
    anything else, exactly when the request is authorized: the server and
    the request are both unsafe, or the signature matches.  For a request
    that is not authorized, [Do] never asks the cache and invokes no
    loader, and it leaves the cache as it was. *)
Theorem Do_cache_first_iff_authorized app params s :
  ((∃ hit rest, events (Do app params s) = EvCache (Image params) hit :: rest)
   ↔ authorized app params = true)
  ∧ (authorized app params = false →
     cache_calls (events (Do app params s)) = []
     ∧ loads (events (Do app params s)) = []
     ∧ store (Do app params s) = s).
Proof.
  split.
  - destruct (authorized app params) eqn:Hauth.
    + split; [done|]. intros _.
      rewrite (Do_authorized _ _ _ Hauth), events_bind, load_events.
      destruct (cache_get s (Image params)); eauto.
    + split; [|done]. intros (hit & rest & Hev).
      rewrite (Do_unauthorized _ _ _ Hauth) in Hev.
      unfold events in Hev. cbn [snd] in Hev. by destruct (Debug app).
  - intros Hauth. rewrite (Do_unauthorized _ _ _ Hauth).
    unfold events, store. cbn [fst snd]. by destruct (Debug app).
Qed.

(** ** The buffer handed from stage to stage *)

Lemma stage_inputs_app evs1 evs2 :
  stage_inputs (evs1 ++ evs2) = stage_inputs evs1 ++ stage_inputs evs2.
Proof. apply omap_app. Qed.

Lemma stage_returns_app evs1 evs2 :
  stage_returns (evs1 ++ evs2) = stage_returns evs1 ++ stage_returns evs2.
Proof. apply omap_app. Qed.

Lemma stage_inputs_below evs :
  Forall below_processors evs → stage_inputs evs = [].
Proof. induction 1 as [|ev evs Hev _ IH]; [done|]. by destruct ev. Qed.

Lemma stage_returns_below evs :
  Forall below_processors evs → stage_returns evs = [].
Proof. induction 1 as [|ev evs Hev _ IH]; [done|]. by destruct ev. Qed.

Lemma when_debug_below c msg e s :
  Forall below_processors (events (when c (Logger_Debug msg e) s)).
Proof. destruct c; by repeat constructor. Qed.

Lemma Do_loop_inputs app params ps : ∀ i buf err s,
  stage_inputs (events (Do_loop app params i ps buf err s))
  = inputs_from buf (stage_returns (events (Do_loop app params i ps buf err s)))
  ∧ (Forall (λ e, e ≠ None)
       (stage_errors (events (Do_loop app params i ps buf err s))) →
     (result (Do_loop app params i ps buf err s)).1.1
     = fold_left next_input
         (stage_returns (events (Do_loop app params i ps buf err s))) buf).
Proof.
  induction ps as [|p ps IH]; intros i buf err s; [done|].
  cbn [Do_loop].
  rewrite result_bind, events_bind, stage_errors_app, stage_inputs_app,
    stage_returns_app, run_Process_stage_errors,
    (stage_inputs_below _ (run_Process_below app _ s)),
    (stage_returns_below _ (run_Process_below app _ s)).
  set (rp := run_Process (load app) (Process p buf params) s).
  rewrite result_bind, events_bind, stage_errors_app, stage_inputs_app,
    stage_returns_app.
  cbn [emit result store events fst snd].
  fold (result rp). fold (store rp).
  change (stage_errors [EvProcess i buf (result rp).1.1 (result rp).1.2 (result rp).2])
    with [(result rp).2].
  change (stage_inputs [EvProcess i buf (result rp).1.1 (result rp).1.2 (result rp).2])
    with [buf].
  change (stage_returns [EvProcess i buf (result rp).1.1 (result rp).1.2 (result rp).2])
    with [((result rp).1.1, (result rp).2)].
  cbn [Datatypes.app inputs_from fold_left].
  unfold next_input at 1 3. cbn [fst snd].
  destruct (result rp).2 as [e|] eqn:He.
  - destruct (is_ErrPass e) eqn:Hp; cbn [andb].
    + rewrite result_bind, events_bind, stage_errors_app, stage_inputs_app,
        stage_returns_app, when_debug_stage_errors, when_debug_store,
        (stage_inputs_below _ (when_debug_below _ _ _ _)),
        (stage_returns_below _ (when_debug_below _ _ _ _)).
      cbn [Datatypes.app].
      destruct (IH (S i) (if nonempty (result rp).1.1 then (result rp).1.1 else buf)
                  err (store rp)) as [Hin Hbuf].
      split; [by rewrite Hin|].
      intros Hall. apply Forall_cons in Hall as [_ Hall]. by apply Hbuf.
    + rewrite result_bind, events_bind, stage_errors_app, stage_inputs_app,
        stage_returns_app, Logger_Error_stage_errors, Logger_Error_store.
      change (stage_inputs (events (Logger_Error "process" (Some e) (store rp))))
        with (@nil bytes).
      change (stage_returns (events (Logger_Error "process" (Some e) (store rp))))
        with (@nil (bytes * option error)).
      cbn [Datatypes.app].
      destruct (IH (S i) buf (Some e) (store rp)) as [Hin Hbuf].
      split; [by rewrite Hin|].
      intros Hall. apply Forall_cons in Hall as [_ Hall]. by apply Hbuf.
  - rewrite result_bind, events_bind, stage_inputs_app, stage_returns_app,
      (stage_inputs_below _ (when_debug_below _ _ _ _)),
      (stage_returns_below _ (when_debug_below _ _ _ _)).
    split; [done|]. intros Hall. by apply Forall_cons in Hall as [? _].
Qed.

Lemma Do_stage_readings app params s :
  authorized app params = true →
  (result (load app (Image params) s)).2 = None →
  stage_inputs (events (Do app params s))
  = stage_inputs (events (Do_loop app params 0 (Processors app)
                            (result (load app (Image params) s)).1 None
                            (store (load app (Image params) s))))
  ∧ stage_returns (events (Do app params s))
    = stage_returns (events (Do_loop app params 0 (Processors app)
                               (result (load app (Image params) s)).1 None
                               (store (load app (Image params) s)))).
Proof.
  intros Hauth Hload.
  by rewrite (Do_authorized _ _ _ Hauth), events_bind, stage_inputs_app,
    stage_returns_app, (stage_inputs_below _ (load_below _ _ _)),
    (stage_returns_below _ (load_below _ _ _)), Hload.
Qed.

(** X6: The first stage is given the bytes [load] returned, and every
    later stage is given what the stage before it was given, unless that
    stage returned [ErrPass] with non-empty bytes, which then replace it.
    Bytes returned with any other error are not handed on. *)
Theorem Do_stage_inputs app params s :
  authorized app params = true →
  (result (load app (Image params) s)).2 = None →
  stage_inputs (events (Do app params s))
  = inputs_from (result (load app (Image params) s)).1
      (stage_returns (events (Do app params s))).
Proof.
  intros Hauth Hload.
  destruct (Do_stage_readings _ _ _ Hauth Hload) as [-> ->].
  apply Do_loop_inputs.
Qed.

(** X7: When no stage returns a nil error, the bytes [Do] returns are the
    bytes [load] returned, as last replaced by non-empty bytes that a
    stage returned with [ErrPass]. *)
Theorem Do_exhausted_buffer app params s :
  authorized app params = true →
  (result (load app (Image params) s)).2 = None →
  Forall (λ e, e ≠ None) (stage_errors (events (Do app params s))) →
  (result (Do app params s)).1.1
  = fold_left next_input (stage_returns (events (Do app params s)))
      (result (load app (Image params) s)).1.
Proof.
  intros Hauth Hload.
  destruct (Do_stage_readings _ _ _ Hauth Hload) as [_ ->].
  destruct (Do_after_load app params s Hauth Hload) as [-> ->].
  apply Do_loop_inputs.
Qed.

(** ** The function handed to the cache *)

Lemma load_loop_spawned app image ls : ∀ i buf err s,
  spawned (events (load_loop app image i ls buf err s)) = [].
Proof.
  induction ls as [|l ls IH]; intros i buf err s; [done|].
  cbn [load_loop]. rewrite events_bind, spawned_app.
  cbn [emit result store events fst snd].
  destruct (Load l image).2 as [e|]; [|done].
  rewrite events_bind, spawned_app, IH.
  destruct (negb (is_ErrPass e) && _ && _); [done|]. by destruct (Debug app).
Qed.

(** What the loop returns depends on the loaders and the image only. *)
Lemma load_loop_result_indep app app' image ls : ∀ i i' buf err s s',
  result (load_loop app image i ls buf err s)
  = result (load_loop app' image i' ls buf err s').
Proof.
  induction ls as [|l ls IH]; intros i i' buf err s s'; [done|].
  cbn [load_loop]. rewrite !result_bind.
  cbn [emit result store events fst snd].
  destruct (Load l image).2 as [e|]; [|done].
  rewrite !result_bind. apply IH.
Qed.

(** After one loader the error the loop started with is forgotten. *)
Lemma load_loop_result_err app image ls : ∀ i buf err err' s,
  ls ≠ [] →
  result (load_loop app image i ls buf err s)
  = result (load_loop app image i ls buf err' s).
Proof.
  intros i buf err err' s Hne. destruct ls as [|l ls]; [done|].
  cbn [load_loop]. rewrite !result_bind.
  cbn [emit result store events fst snd].
  by destruct (Load l image).2 as [e|].
Qed.

(** What the function returns, from what the loop returns. *)
Lemma load_func_result app image s :
  result (load_func app image s)
  = ((result (load_loop app image 0 (Loaders app) [] None s)).1,
     match (result (load_loop app image 0 (Loaders app) [] None s)).2 with
     | Some e => Some (if is_ErrPass e then ErrorOf ErrNotFound else e)
     | None => None
     end).
Proof.
  destruct (result (load_loop app image 0 (Loaders app) [] None s))
    as [buf [e|]] eqn:Hr.
  - by destruct (load_func_after_failure app image s buf e Hr) as [-> _].
  - by destruct (load_func_after_success app image s buf Hr) as [-> _].
Qed.

(** X8: The function handed to the cache starts the goroutines of [save]
    exactly when it returns a nil error: then one for each storage, in
    order, each with the image and the bytes returned; when it returns an
    error, none. *)
Theorem load_func_saves_on_success app image s :
  spawned (events (load_func app image s))
  = match (result (load_func app image s)).2 with
    | None =>
        map (λ st, {| go_storage := st; go_image := image;
                      go_buf := (result (load_func app image s)).1;
                      go_cancel := if 0 <? RequestTimeout app
                                   then Some (CancelTimeout (RequestTimeout app))
                                   else None |}) (Storages app)
    | Some _ => []
    end.
Proof.
  rewrite load_func_result. unfold load_func.
  rewrite events_bind, spawned_app, load_loop_spawned, load_loop_store.
  destruct (result (load_loop app image 0 (Loaders app) [] None s))
    as [buf [e|]]; cbn [fst snd Datatypes.app].
  - by destruct (negb (errors_Is_Canceled e)).
  - rewrite !events_bind, !spawned_app.
    replace (spawned (events (when (Debug app) (Logger_Debug "loaded" None) s)))
      with (@nil Goroutine) by (by destruct (Debug app)).
    rewrite when_debug_store. cbn [Datatypes.app].
    destruct (Storages app) as [|st sts] eqn:Hsts; [done|].
    cbn [length Nat.ltb Nat.leb when]. rewrite save_spawned.
    cbn. by rewrite app_nil_r.
Qed.

(** X9: The function handed to the cache never logs a cancellation at
    error level, neither in the loop nor at the end. *)
Theorem load_func_cancel_not_logged app image s :
  Forall (λ e, ∃ e', e = Some e' ∧ errors_Is_Canceled e' = false)
    (logged_errors (events (load_func app image s))).
Proof.
  assert (Hloop : ∀ ls i buf err s,
    Forall (λ e, ∃ e', e = Some e' ∧ errors_Is_Canceled e' = false)
      (logged_errors (events (load_loop app image i ls buf err s)))).
  { induction ls as [|l ls IH]; intros i buf err s0; [by constructor|].
    cbn [load_loop]. rewrite events_bind, logged_errors_app.
    apply Forall_app. split; [by constructor|].
    cbn [emit result store fst snd].
    destruct (Load l image).2 as [e|]; [|by constructor].
    rewrite events_bind, logged_errors_app. apply Forall_app. split; [|apply IH].
    destruct (errors_Is_Canceled e) eqn:Hc.
    - rewrite andb_false_r. destruct (Debug app); by constructor.
    - destruct (negb (is_ErrPass e) && negb (is_ErrNotFound e) && negb false).
      + constructor; [eauto | by constructor].
      + destruct (Debug app); by constructor. }
  unfold load_func. rewrite events_bind, logged_errors_app.
  apply Forall_app. split; [apply Hloop|].
  rewrite load_loop_store.
  destruct (result _).2 as [e|].
  - destruct (errors_Is_Canceled e) eqn:Hc; cbn [negb]; [by constructor|].
    constructor; [|by constructor].
    destruct (is_ErrPass e); eauto.
  - rewrite !events_bind, !logged_errors_app, when_debug_logged_errors,
      when_save_logged_errors. by constructor.
Qed.

(** X10: When the function handed to the cache returns an error that is
    not a cancellation, the last thing it logs at error level is that
    error. *)
Theorem load_func_failure_logged app image s e :
  (result (load_func app image s)).2 = Some e →
  errors_Is_Canceled e = false →
  last (logged_errors (events (load_func app image s))) = Some (Some e).
Proof.
  rewrite load_func_result. unfold load_func.
  rewrite events_bind, logged_errors_app, load_loop_store.
  destruct (result (load_loop app image 0 (Loaders app) [] None s))
    as [buf [e0|]]; cbn [fst snd]; [|done].
  intros [= <-] Hc.
  assert (Hc0 : errors_Is_Canceled e0 = false).
  { destruct (is_ErrPass e0) eqn:Hp; [|done].
    apply bool_decide_eq_true in Hp. by subst. }
  rewrite Hc0. cbn [negb]. rewrite events_bind, logged_errors_app.
  cbn. by rewrite last_snoc.
Qed.

(** X11: The function handed to the cache never returns [ErrPass], as
    long as [ErrNotFound] is another error. *)
Theorem load_func_never_pass app image s :
  ErrNotFound ≠ ErrPass →
  (result (load_func app image s)).2 ≠ Some (ErrorOf ErrPass).
Proof.
  intros Hne. rewrite load_func_result. cbn [snd].
  destruct (result _).2 as [e|]; [|done].
  destruct (is_ErrPass e) eqn:Hp.
  - congruence.
  - apply bool_decide_eq_false in Hp. congruence.
Qed.

(** X12: What the function handed to the cache returns depends on the
    loaders and the image only: not on the storages or on what they
    return, not on the timeout, the debug flag or the state of the
    cache. *)
Theorem load_func_result_depends_on_loaders app app' image s s' :
  Loaders app = Loaders app' →
  result (load_func app image s) = result (load_func app' image s').
Proof.
  intros Hls. rewrite !load_func_result, Hls.
  by rewrite (load_loop_result_indep app app' image (Loaders app') 0 0 [] None s s').
Qed.

(** X13: A loader that fails without bytes, placed before other loaders,
    does not change what the function handed to the cache returns. *)
Theorem load_func_skips_failed_loader app app' image s l e :
  Loaders app = l :: Loaders app' →
  Loaders app' ≠ [] →
  Load l image = ([], Some e) →
  result (load_func app image s) = result (load_func app' image s).
Proof.
  intros Hls Hne Hl. rewrite !load_func_result, Hls.
  assert (Hloop : result (load_loop app image 0 (l :: Loaders app') [] None s)
                  = result (load_loop app' image 0 (Loaders app') [] None s)).
  { cbn [load_loop]. rewrite result_bind.
    cbn [emit result store events fst snd]. rewrite Hl. cbn [fst snd].
    rewrite result_bind, nonempty_nil.
    rewrite (load_loop_result_err app image (Loaders app') 1 [] (Some e) None _ Hne).
    apply load_loop_result_indep. }
  by rewrite Hloop.
Qed.

(** ** The response *)

Lemma ServeHTTP_root app s :
  result (ServeHTTP app "/" s) = resJSON JInfo
  ∧ events (ServeHTTP app "/" s) = []
  ∧ store (ServeHTTP app "/" s) = s.
Proof. done. Qed.

Lemma resJSON_ends_with_body pre v :
  bodies pre = [] → (length (statuses pre) ≤ 1)%nat →
  ends_with_body (pre ++ resJSON v).
Proof.
  intros Hb Hs.
  exists (pre ++ [Header_Set "Content-Type" "application/json"]),
    (json_Marshal v).
  unfold resJSON, bodies, statuses in *.
  rewrite <- app_assoc, !omap_app, Hb, length_app. cbn. split; [done|].
  split; [done | lia].
Qed.

Lemma write_status_statuses e :
  bodies (write_status e) = [] ∧ (length (statuses (write_status e)) ≤ 1)%nat.
Proof.
  unfold write_status. destruct (WrapError (Some e)) as [[c| |]|]; cbn; auto.
Qed.

Lemma write_result_ends_with_body params r : ends_with_body (write_result params r).
Proof.
  destruct r as [[buf meta] err]. unfold write_result. cbn [fst snd].
  fold (nonempty buf).
  assert (Htail : ∀ pre, bodies pre = [] → statuses pre = [] →
    ends_with_body
      (pre ++ match err with
              | Some err =>
                  write_status err ++
                  (if nonempty buf
                   then [Header_Set "Content-Length" (Itoa (length buf)); Write buf]
                   else resJSON (JError err))
              | None => [Header_Set "Content-Length" (Itoa (length buf)); Write buf]
              end)).
  { intros pre Hb Hs. destruct err as [e|].
    - destruct (write_status_statuses e) as [Hwb Hws].
      destruct (nonempty buf).
      + exists (pre ++ write_status e), buf.
        unfold bodies, statuses in *.
        rewrite <- app_assoc, !omap_app, Hb, Hs, Hwb. done.
      + rewrite app_assoc. apply resJSON_ends_with_body.
        * unfold bodies in *. by rewrite omap_app, Hb, Hwb.
        * unfold statuses in *. by rewrite omap_app, Hs.
    - exists pre, buf. rewrite Hs. cbn. split; [done|]. split; [done | lia]. }
  destruct meta as [m|].
  - destruct (P_Meta params).
    + apply (resJSON_ends_with_body []); cbn; [done | lia].
    + apply (Htail [Header_Set "Content-Type" (ContentType m)]); done.
  - destruct (nonempty buf) eqn:Hb.
    + apply (Htail [Header_Set "Content-Type" (DetectContentType buf)]); done.
    + apply (Htail []); done.
Qed.

(** X14: Whatever the request and the outcome, [ServeHTTP] writes exactly
    one body, as its last call, right after a [Content-Length] header that
    holds the length of that body, and it writes at most one status. *)
Theorem ServeHTTP_ends_with_body app uri s :
  ends_with_body (result (ServeHTTP app uri s)).
Proof.
  destruct (decide (uri = "/")) as [-> | Huri].
  - apply (resJSON_ends_with_body []); cbn; [done | lia].
  - rewrite (ServeHTTP_result _ _ _ Huri). apply write_result_ends_with_body.
Qed.

(** X15: [ServeHTTP] writes no status for the root path and none when [Do]
    returns a nil error: the response then goes out with the default
    status. *)
Theorem ServeHTTP_no_status_without_error app uri s :
  uri = "/" ∨ (result (Do app (ParseParams uri) s)).2 = None →
  statuses (result (ServeHTTP app uri s)) = [].
Proof.
  intros Hok. destruct (decide (uri = "/")) as [-> | Huri]; [done|].
  destruct Hok as [? | Herr]; [done|].
  rewrite (ServeHTTP_result _ _ _ Huri).
  destruct (result (Do app (ParseParams uri) s)) as [[buf meta] err].
  cbn [snd] in Herr. subst err. unfold write_result. cbn [fst snd].
  destruct meta as [m|]; [by destruct (P_Meta (ParseParams uri))|].
  by destruct (0 <? length buf)%nat.
Qed.

(** X16: With no loader and no processor configured, an authorized request
    for an image that is not in the cache is answered with an empty body
    and no status: the empty list of loaders counts as a successful load
    of no bytes. *)
Theorem ServeHTTP_no_loaders app uri s :
  uri ≠ "/" →
  authorized app (ParseParams uri) = true →
  cache_get s (Image (ParseParams uri)) = None →
  WrapError None = None →
  Loaders app = [] →
  Processors app = [] →
  result (ServeHTTP app uri s) = [Header_Set "Content-Length" (Itoa 0); Write []].
Proof.
  intros Huri Hauth Hmiss Hwrap Hls Hps.
  rewrite (ServeHTTP_result _ _ _ Huri), (Do_authorized _ _ _ Hauth), result_bind.
  destruct (load_miss app (Image (ParseParams uri)) s Hmiss) as [-> _].
  rewrite load_func_result, Hls. cbn [load_loop ret result fst snd].
  rewrite Hwrap, Hps. reflexivity.
Qed.

(** X17: When every loader fails without bytes and the last of them
    returns [ErrPass], an authorized request for an image that is not in
    the cache is answered with the status of [ErrNotFound] and the JSON
    form of that error, as long as [WrapError] leaves [ErrNotFound] as it
    is. *)
Theorem ServeHTTP_not_found app uri s l :
  uri ≠ "/" →
  authorized app (ParseParams uri) = true →
  cache_get s (Image (ParseParams uri)) = None →
  WrapError (Some (ErrorOf ErrNotFound)) = Some (ErrorOf ErrNotFound) →
  Forall (fails (Image (ParseParams uri))) (Loaders app) →
  Forall (bytesless (Image (ParseParams uri))) (Loaders app) →
  last (Loaders app) = Some l →
  (Load l (Image (ParseParams uri))).2 = Some (ErrorOf ErrPass) →
  result (ServeHTTP app uri s)
  = WriteHeader (Code ErrNotFound) :: resJSON (JError (ErrorOf ErrNotFound))
  ∧ stage_errors (events (ServeHTTP app uri s)) = [].
Proof.
  intros Huri Hauth Hmiss Hwrap Hfail Hnob Hlast Hl.
  set (image := Image (ParseParams uri)) in *.
  assert (Hload : result (load app image s) = ([], Some (ErrorOf ErrNotFound))).
  { destruct (load_miss app image s Hmiss) as [-> _].
    rewrite load_func_result.
    destruct (load_loop_exhausted app image (Loaders app) 0 [] None s Hfail)
      as [-> _].
    rewrite Hlast, Hl, (retained_bytesless _ _ _ Hnob). cbn [fst snd].
    unfold is_ErrPass. rewrite bool_decide_eq_true_2 by done. by rewrite Hwrap. }
  assert (Hdo : result (Do app (ParseParams uri) s)
                = ([], None, Some (ErrorOf ErrNotFound))).
  { destruct (Do_after_load_failure app (ParseParams uri) s (ErrorOf ErrNotFound)
                Hauth) as [-> _]; fold image; by rewrite Hload. }
  split.
  - rewrite (ServeHTTP_result _ _ _ Huri), Hdo.
    unfold write_result, write_status. cbn [fst snd length Nat.ltb Nat.leb].
    rewrite Hwrap. by destruct (bool_decide (ErrNotFound = ErrPass)).
  - unfold ServeHTTP. rewrite bool_decide_eq_false_2 by done.
    rewrite !events_bind, !stage_errors_app, when_debug_stage_errors,
      when_debug_store.
    destruct (Do_after_load_failure app (ParseParams uri) s (ErrorOf ErrNotFound)
                Hauth) as (_ & -> & _); [fold image; by rewrite Hload|].
    rewrite stage_errors_app, load_stage_errors. reflexivity.
Qed.

End Further.

(** * Startup and shutdown *)

Section Lifecycles.
Variable call : Lifecycle -> option error.

Lemma each_processor_fails pre p post e : ∀ i,
  Forall (λ q, call q = None) pre →
  call p = Some e →
  each_processor call i (pre ++ p :: post) = (Some e, seq i (S (length pre))).
Proof.
  induction pre as [|q pre IH]; intros i Hpre Hp; cbn [Datatypes.app each_processor].
  - by rewrite Hp.
  - apply Forall_cons in Hpre as [-> Hpre]. by rewrite (IH (S i) Hpre Hp).
Qed.

Lemma each_processor_succeeds ps : ∀ i,
  (each_processor call i ps).1 = None ↔ Forall (λ q, call q = None) ps.
Proof.
  induction ps as [|q ps IH]; intros i; cbn [each_processor]; [done|].
  destruct (call q) eqn:Hq; cbn [fst].
  - split; [done|]. intros H. apply Forall_cons in H as [? _]. congruence.
  - rewrite IH. split; [by constructor|]. intros H. by apply Forall_cons in H as [_ ?].
Qed.

Lemma each_processor_all ps : ∀ i,
  Forall (λ q, call q = None) ps →
  each_processor call i ps = (None, seq i (length ps)).
Proof.
  induction ps as [|q ps IH]; intros i Hps; cbn [each_processor]; [done|].
  apply Forall_cons in Hps as [-> Hps]. by rewrite (IH (S i) Hps).
Qed.

End Lifecycles.

(** X18: [Startup] starts the processors in order and stops at the first
    one whose [Startup] fails: it returns that error, and no processor
    after it is started. *)
Theorem Startup_fail_fast pre p post e :
  Forall (λ q, P_Startup q = None) pre →
  P_Startup p = Some e →
  Startup (pre ++ p :: post) = (Some e, seq 0 (S (length pre))).
Proof. apply each_processor_fails. Qed.

(** X19: [Shutdown] shuts the processors down in order and stops at the
    first one whose [Shutdown] fails: it returns that error, and no
    processor after it is shut down. *)
Theorem Shutdown_fail_fast pre p post e :
  Forall (λ q, P_Shutdown q = None) pre →
  P_Shutdown p = Some e →
  Shutdown (pre ++ p :: post) = (Some e, seq 0 (S (length pre))).
Proof. apply each_processor_fails. Qed.

(** X20: When the [Startup] and the [Shutdown] of every processor return
    a nil error, [Startup] and [Shutdown] return a nil error after they
    have gone through all the processors, in order. *)
Theorem Startup_Shutdown_all processors :
  Forall (λ q, P_Startup q = None ∧ P_Shutdown q = None) processors →
  Startup processors = (None, seq 0 (length processors))
  ∧ Shutdown processors = (None, seq 0 (length processors)).
Proof.
  intros Hall. split; apply each_processor_all;
    (eapply Forall_impl; [exact Hall|]); by intros q [? ?].
Qed.

(** * The CIDR flag *)

Section CIDRFlag.
Variable IPNet : Type.
Variable ParseCIDR : string -> IPNet + error.
Variable IPNet_String : IPNet -> string.

Local Abbreviation Set_loop := (Flags.Set_loop IPNet ParseCIDR).
Local Abbreviation Set_ := (Flags.Set_ IPNet ParseCIDR).
Local Abbreviation String_ := (Flags.String_ IPNet IPNet_String).

Lemma Set_loop_parsed fields : ∀ res nets,
  Forall2 (λ f n, ParseCIDR f = inl n) fields nets →
  Set_loop fields res = inl (res ++ nets).
Proof.
  induction fields as [|f fields IH]; intros res nets Hall.
  - apply Forall2_nil_inv_l in Hall as ->. cbn. by rewrite app_nil_r.
  - apply Forall2_cons_inv_l in Hall as (n & nets' & Hn & Hall & ->).
    cbn [Flags.Set_loop]. rewrite Hn, (IH _ _ Hall), <- app_assoc. done.
Qed.

Lemma Set_loop_inl fields : ∀ res out,
  Set_loop fields res = inl out →
  ∃ nets, out = res ++ nets ∧ Forall2 (λ f n, ParseCIDR f = inl n) fields nets.
Proof.
  induction fields as [|f fields IH]; intros res out; cbn [Flags.Set_loop].
  - intros [= <-]. exists []. by rewrite app_nil_r.
  - destruct (ParseCIDR f) as [n|e] eqn:Hn; [|done].
    intros Hout. destruct (IH _ _ Hout) as (nets & -> & Hall).
    exists (n :: nets). rewrite <- app_assoc. split; [done|]. by constructor.
Qed.

Lemma Set_loop_first_error pre v post e : ∀ res,
  Forall (λ f, ∃ n, ParseCIDR f = inl n) pre →
  ParseCIDR v = inr e →
  Set_loop (pre ++ v :: post) res = inr e.
Proof.
  induction pre as [|f pre IH]; intros res Hpre Hv; cbn [Datatypes.app Flags.Set_loop].
  - by rewrite Hv.
  - apply Forall_cons in Hpre as [[n Hn] Hpre]. rewrite Hn. by apply IH.
Qed.

Lemma Split_nonempty s sep : Flags.Split s sep ≠ [].
Proof.
  destruct s as [|c s]; cbn [Flags.Split]; [done|].
  destruct (Ascii.eqb c sep); [done|]. by destruct (Flags.Split s sep).
Qed.

Lemma Split_no_sep f sep :
  Flags.has_byte sep f = false → Flags.Split f sep = [f].
Proof.
  induction f as [|c f IH]; cbn [Flags.has_byte Flags.Split]; [done|].
  intros H. apply orb_false_iff in H as [-> H]. by rewrite (IH H).
Qed.

Lemma Split_field_sep f sep rest :
  Flags.has_byte sep f = false →
  Flags.Split (f +:+ String sep rest) sep = f :: Flags.Split rest sep.
Proof.
  induction f as [|c f IH]; simpl.
  - intros _. by rewrite Ascii.eqb_refl.
  - intros H. apply orb_false_iff in H as [-> H]. by rewrite (IH H).
Qed.

Lemma Split_Join elems sep :
  elems ≠ [] →
  Forall (λ f, Flags.has_byte sep f = false) elems →
  Flags.Split (Flags.Join elems (String sep EmptyString)) sep = elems.
Proof.
  induction elems as [|f elems IH]; [done|]. intros _ Hall.
  apply Forall_cons in Hall as [Hf Hall].
  destruct elems as [|f' elems]; [by apply Split_no_sep|].
  change (Flags.Join (f :: f' :: elems) (String sep EmptyString))
    with (f +:+ String sep (Flags.Join (f' :: elems) (String sep EmptyString))).
  rewrite (Split_field_sep _ _ _ Hf), IH; done.
Qed.

(** X21: [Set] stops at the first field, from left to right, that
    [net.ParseCIDR] rejects: it returns the error of that field and leaves
    the flag as it was. *)
Theorem Set_first_error s value pre v post e :
  Flags.Split value "," = pre ++ v :: post →
  Forall (λ f, ∃ n, ParseCIDR f = inl n) pre →
  ParseCIDR v = inr e →
  Set_ s value = (s, Some e).
Proof.
  intros Hsplit Hpre Hv. unfold Flags.Set_.
  by rewrite Hsplit, (Set_loop_first_error _ _ _ _ _ Hpre Hv).
Qed.

(** X22: [Set] either fails and leaves the flag as it was, or succeeds and
    replaces it, whatever it held, by the networks of the comma-separated
    fields of the value, one for each field in order; the flag is then
    never empty. *)
Theorem Set_all_or_nothing s value :
  match (Set_ s value).2 with
  | Some _ => (Set_ s value).1 = s
  | None =>
      Forall2 (λ f n, ParseCIDR f = inl n) (Flags.Split value ",") (Set_ s value).1
      ∧ (Set_ s value).1 ≠ []
  end.
Proof.
  unfold Flags.Set_.
  destruct (Set_loop (Flags.Split value ",") []) as [out|e] eqn:Hloop; [|done].
  cbn [fst snd].
  destruct (Set_loop_inl _ _ _ Hloop) as (nets & -> & Hall).
  split; [done|]. intros Hnil. cbn in Hnil. subst nets.
  apply Forall2_nil_inv_r in Hall. by apply Split_nonempty in Hall.
Qed.

(** X23: [Set] of what [String] gives restores the flag, when the flag is
    not empty and every network of it is written without a comma and
    parsed back to itself. *)
Theorem Set_String s0 s :
  s ≠ [] →
  Forall (λ n, ParseCIDR (IPNet_String n) = inl n
               ∧ Flags.has_byte "," (IPNet_String n) = false) s →
  Set_ s0 (String_ s) = (s, None).
Proof.
  intros Hne Hall. unfold Flags.Set_, Flags.String_.
  rewrite Split_Join.
  - rewrite (Set_loop_parsed _ [] s); [done|].
    apply Forall2_fmap_l, Forall_Forall2_diag.
    eapply Forall_impl; [exact Hall|]. by intros n [? _].
  - by destruct s.
  - apply Forall_fmap. eapply Forall_impl; [exact Hall|]. by intros n [_ ?].
Qed.

End CIDRFlag.

(** * The paths of the file store *)

Section FileStorePaths.
Variable path_Clean : string -> string.
Variable filepath_Join : string -> string -> string.

Local Abbreviation normalized := (FileStore.normalized path_Clean).
Local Abbreviation Path_ := (FileStore.Path_ path_Clean filepath_Join).

Lemma append_String c a b : String c a +:+ b = String c (a +:+ b).
Proof. reflexivity. Qed.

Lemma HasPrefix_split s prefix :
  FileStore.HasPrefix s prefix = true →
  s = prefix +:+ FileStore.drop_bytes (String.length prefix) s.
Proof.
  unfold FileStore.HasPrefix. revert s.
  induction prefix as [|c prefix IH]; intros s; [done|].
  destruct s as [|c' s]; simpl; [done|].
  destruct (ascii_dec c c') as [<- | ?]; [|done].
  intros H. rewrite append_String. f_equal. by apply IH.
Qed.

Lemma contains_suffix sub a b :
  FileStore.contains sub (a +:+ b) = false → FileStore.contains sub b = false.
Proof.
  induction a as [|c a IH]; [done|]. rewrite append_String. simpl.
  intros H. apply orb_false_iff in H as [_ H]. by apply IH.
Qed.

Lemma contains_slash_dot rel :
  FileStore.contains "/." ("/" +:+ rel) = false →
  String.prefix "." rel = false ∧ FileStore.contains "/." rel = false.
Proof.
  change ("/" +:+ rel) with (String "/" rel). simpl. intros H.
  apply orb_false_iff in H as [Hp Hc]. split; [|done].
  by destruct (ascii_dec "/" "/").
Qed.

Lemma existsb_false_In {A} (f : A -> bool) l x :
  existsb f l = false → In x l → f x = false.
Proof.
  induction l as [|y l IH]; [done|]. cbn.
  intros H [-> | Hin]; apply orb_false_iff in H as [? ?]; [done | by apply IH].
Qed.

(** X24: With the dot-file rule among the blacklists and a path prefix
    that ends with a slash, every path that [Path] accepts is the base
    directory joined with the rest of the image after the prefix, and no
    component of that rest starts with a dot: no hidden file, and no step
    up with two dots. *)
Theorem Path_no_dot_component s image p prefix0 :
  In FileStore.dotFileRegex (FileStore.Blacklists s) →
  FileStore.PathPrefix s = prefix0 +:+ "/" →
  Path_ s image = (p, true) →
  ∃ rel,
    p = filepath_Join (FileStore.BaseDir s) rel
    ∧ normalized image = FileStore.PathPrefix s +:+ rel
    ∧ String.prefix "." rel = false
    ∧ FileStore.contains "/." rel = false.
Proof.
  intros Hdot Hprefix. unfold FileStore.Path_.
  destruct (existsb _ (FileStore.Blacklists s)) eqn:Hbl; [done|].
  destruct (FileStore.HasPrefix (normalized image) (FileStore.PathPrefix s))
    eqn:Hhas; [|done].
  cbn [negb]. intros [= <-].
  pose proof (existsb_false_In _ _ _ Hbl Hdot) as Hnodot. cbn in Hnodot.
  pose proof (HasPrefix_split _ _ Hhas) as Hsplit.
  unfold FileStore.TrimPrefix. rewrite Hhas.
  set (rel := FileStore.drop_bytes _ _) in *.
  exists rel. split; [done|]. split; [done|].
  rewrite Hsplit, Hprefix in Hnodot.
  assert (Hassoc : (prefix0 +:+ "/") +:+ rel = prefix0 +:+ ("/" +:+ rel)).
  { clear. induction prefix0 as [|c q IH]; [done|].
    by rewrite !append_String, IH. }
  rewrite Hassoc in Hnodot.
  by apply contains_suffix, contains_slash_dot in Hnodot.
Qed.

End FileStorePaths.

(** * The handler on concrete configurations *)

Import Fixture.

(** C1: Processor chain first-success.  With a first stage that returns an
    error other than [ErrPass] and a second stage that returns bytes and
    metadata with a nil error, [Do] returns the bytes and the metadata of
    the second stage together with the error of the first. *)
Theorem Do_first_success_keeps_error :
  stage_errors (events (Do app_fail_then_ok (parseParams "/unsafe/a.jpg")
                          empty_store))
  = [Some boom; None]
  ∧ result (Do app_fail_then_ok (parseParams "/unsafe/a.jpg") empty_store)
    = (b2, Some meta2, Some boom).
Proof. split; vm_compute; reflexivity. Qed.

(** C9: Persistence fan-out.  With one storage and a request timeout of
    zero, a successful load starts one goroutine whose [cancel] is nil,
    and the goroutine ends in the call of that nil function. *)
Theorem save_without_timeout_panics :
  result (load app_no_timeout "a.jpg" empty_store) = (b1, None)
  ∧ map go_cancel (spawned (events (load app_no_timeout "a.jpg" empty_store)))
    = [None]
  ∧ map (λ t, (save_goroutine app_no_timeout t).2)
      (spawned (events (load app_no_timeout "a.jpg" empty_store)))
    = [NilFuncPanic].
Proof. repeat split; vm_compute; reflexivity. Qed.


(** C7: Fallback bytes delivered with error status.  With a first stage
    that returns an error and a second one that returns bytes and
    metadata, [Do] returns the bytes and the metadata together with the
    error of the first stage, a classified error with a non-empty buffer;
    for a request for metadata only, [ServeHTTP] then writes the metadata
    as JSON, no status and not the buffer. *)
Theorem ServeHTTP_metadata_hides_error :
  result (Do app_fail_then_ok (parseParams "/unsafe/meta/a.jpg") empty_store)
  = (b2, Some meta2, Some boom)
  ∧ WrapError (Some boom) = Some (ErrorOf (NewError "boom" 500))
  ∧ result (ServeHTTP app_fail_then_ok "/unsafe/meta/a.jpg" empty_store)
    = resJSON (JMeta meta2)
  ∧ statuses (result (ServeHTTP app_fail_then_ok "/unsafe/meta/a.jpg"
                        empty_store)) = []
  ∧ bodies (result (ServeHTTP app_fail_then_ok "/unsafe/meta/a.jpg"
                      empty_store)) = [marshal (JMeta meta2)].
Proof. repeat split; vm_compute; reflexivity. Qed.

(** A first stage that fails and a second one that passes: [Do] returns
    the error of the first. *)
Lemma Do_chain_exhaustion_witness :
  authorized app_fail_then_pass (parseParams "/unsafe/a.jpg") = true
  ∧ stage_errors (events (Do app_fail_then_pass (parseParams "/unsafe/a.jpg")
                            empty_store))
    = [Some boom; pass]
  ∧ (result (Do app_fail_then_pass (parseParams "/unsafe/a.jpg")
               empty_store)).2
    = Some boom.
Proof.
  assert (Hauth : authorized app_fail_then_pass (parseParams "/unsafe/a.jpg")
                  = true) by reflexivity.
  assert (Herrs : stage_errors (events (Do app_fail_then_pass
                    (parseParams "/unsafe/a.jpg") empty_store))
                  = [Some boom; pass]) by (vm_compute; reflexivity).
  split; [exact Hauth|]. split; [exact Herrs|].
  refine (proj1 (Do_chain_exhaustion app_fail_then_pass
            (parseParams "/unsafe/a.jpg") empty_store Hauth eq_refl _)
            [] boom [pass] Herrs _ _).
  - rewrite Herrs. repeat constructor; discriminate.
  - discriminate.
  - repeat constructor.
Defined.

(** One stage that returns [ErrPass]: [Do] returns a nil error, not
    [ErrPass]. *)
Lemma chain_exhaustion_counterexample :
  ¬ @chain_exhaustion_as_worded externals.
Proof.
  intros H.
  assert (Herrs : stage_errors (events (Do app_all_pass
                    (parseParams "/unsafe/a.jpg") empty_store)) = [pass])
    by (vm_compute; reflexivity).
  destruct (H app_all_pass (parseParams "/unsafe/a.jpg") empty_store)
    as [_ Hpass].
  - reflexivity.
  - reflexivity.
  - rewrite Herrs. repeat constructor; discriminate.
  - rewrite Herrs in Hpass. specialize (Hpass ltac:(repeat constructor)).
    vm_compute in Hpass. discriminate.
Qed.

(** A path that is neither unsafe nor signed. *)
Lemma Do_hash_mismatch_witness :
  P_Unsafe (parseParams "/deadbeef/a.jpg") = false
  ∧ Verify (parseParams "/deadbeef/a.jpg") (Secret app_pass_pass) = false
  ∧ result (Do app_pass_pass (parseParams "/deadbeef/a.jpg") empty_store)
    = ([], None, Some (ErrorOf errHashMismatch))
  ∧ events (Do app_pass_pass (parseParams "/deadbeef/a.jpg") empty_store) = [].
Proof.
  split; [reflexivity|]. split; [reflexivity|].
  pose proof (Do_hash_mismatch app_pass_pass (parseParams "/deadbeef/a.jpg")
                empty_store (or_intror eq_refl) eq_refl) as (Hr & _ & He & _).
  split; [exact Hr | exact He].
Defined.

(** Loaders [A(Pass), B(Pass)]: [load] returns [ErrNotFound]. *)
Lemma load_chain_exhaustion_witness :
  Forall (fails "a.jpg") (Loaders app_pass_pass)
  ∧ (result (load app_pass_pass "a.jpg" empty_store)).2
    = Some (ErrorOf errNotFound).
Proof.
  assert (Hall : Forall (fails "a.jpg") (Loaders app_pass_pass))
    by (repeat constructor; discriminate).
  split; [exact Hall|].
  exact (proj2 (proj2 (load_chain_exhaustion app_pass_pass "a.jpg" empty_store
                         (loader [] pass) (ErrorOf errPass)
                         eq_refl Hall eq_refl eq_refl))).
Defined.

(** Loaders [A(Pass), B(bytes, nil)]: both are invoked and [load] returns
    B's bytes with a nil error.  Loader [A(bytes, boom)] alone: [load]
    returns A's bytes with the error. *)
Lemma load_chain_fallback_witness :
  (loads (events (load_func app_pass_then_bytes "a.jpg" empty_store)) = [0; 1]%nat
   ∧ result (load app_pass_then_bytes "a.jpg" empty_store) = (b1, None))
  ∧ (loads (events (load_func app_load_fails "a.jpg" empty_store)) = [0]%nat
     ∧ result (load_func app_load_fails "a.jpg" empty_store) = (b1, Some boom)
     ∧ result (load app_load_fails "a.jpg" empty_store)
       = (b1, Some (ErrorOf (NewError "boom" 500)))).
Proof.
  split.
  - pose proof (proj1 (load_chain_fallback (X:=externals) app_pass_then_bytes
                         "a.jpg" empty_store eq_refl)
                  [loader [] pass] (loader b1 None) [] eq_refl
                  ltac:(repeat constructor; discriminate) eq_refl)
      as (Hloads & _ & Hload & _).
    split; [exact Hloads | exact Hload].
  - exact (proj1 (proj2 (load_chain_fallback (X:=externals) app_load_fails
                           "a.jpg" empty_store eq_refl))
             (loader b1 (Some boom)) boom
             ltac:(repeat constructor; discriminate) eq_refl eq_refl).
Defined.

(** Loaders [A(bytes, boom), B(empty, nil)]: [load] returns A's bytes with
    a nil error. *)
Lemma load_chain_empty_success_witness :
  Loaders app_bytes_then_empty = [] ++ loader b1 (Some boom) :: [] ++ loader [] None :: []
  ∧ result (load app_bytes_then_empty "a.jpg" empty_store) = (b1, None).
Proof.
  split; [reflexivity|].
  exact (proj2 (load_chain_empty_success app_bytes_then_empty "a.jpg"
                  empty_store [] (loader b1 (Some boom)) [] (loader [] None) []
                  eq_refl eq_refl ltac:(repeat constructor; discriminate)
                  eq_refl ltac:(constructor) eq_refl)).
Defined.

(** A live cache entry that holds [ErrPass]: the status written is 404. *)
Lemma ServeHTTP_pass_is_not_found_witness :
  (result (Do app_pass_pass (ParseParams "/unsafe/a.jpg") pass_store)).2 = pass
  ∧ status_then_body (result (ServeHTTP app_pass_pass "/unsafe/a.jpg" pass_store))
      404 (marshal (JError (ErrorOf errPass))).
Proof.
  split; [vm_compute; reflexivity|].
  exact (ServeHTTP_pass_is_not_found app_pass_pass "/unsafe/a.jpg" pass_store
           ltac:(discriminate) eq_refl ltac:(vm_compute; reflexivity)).
Defined.

(** A loader that returns bytes with an error: the status written is 500
    and the body is the bytes. *)
Lemma ServeHTTP_fallback_delivery_witness :
  (result (Do app_load_fails (ParseParams "/unsafe/a.jpg") empty_store)).2
  = Some (ErrorOf (NewError "boom" 500))
  ∧ status_then_body
      (result (ServeHTTP app_load_fails "/unsafe/a.jpg" empty_store)) 500 b1.
Proof.
  split; [vm_compute; reflexivity|].
  exact (ServeHTTP_fallback_delivery app_load_fails "/unsafe/a.jpg" empty_store
           (ErrorOf (NewError "boom" 500)) (NewError "boom" 500)
           ltac:(discriminate) ltac:(vm_compute; reflexivity) eq_refl
           (or_intror eq_refl)).
Defined.

(** A request for metadata only, a first stage that returns an error and a
    second one that returns bytes and metadata: the result of [Do] is a
    classified error with a non-empty buffer, and [ServeHTTP] writes the
    metadata and no status. *)
Lemma fallback_delivery_counterexample :
  ¬ @fallback_delivery_as_worded externals.
Proof.
  intros H.
  destruct (H app_fail_then_ok "/unsafe/meta/a.jpg" empty_store boom
              (NewError "boom" 500) ltac:(discriminate)
              ltac:(vm_compute; reflexivity) eq_refl)
    as (pre & mid & Hcalls & _).
  assert (Hin : In (WriteHeader (http_status (NewError "boom" 500)))
                  (result (ServeHTTP app_fail_then_ok "/unsafe/meta/a.jpg"
                             empty_store)))
    by (rewrite Hcalls; apply in_elt).
  vm_compute in Hin. intuition discriminate.
Qed.

(** * The further properties on concrete configurations *)

Lemma Do_load_failure_witness :
  (result (load app_load_fails "/unsafe/a.jpg" empty_store)).2
  = Some (ErrorOf (NewError "boom" 500))
  ∧ result (Do app_load_fails (parseParams "/unsafe/a.jpg") empty_store)
    = (b1, None, Some (ErrorOf (NewError "boom" 500))).
Proof.
  split; [vm_compute; reflexivity|].
  exact (proj1 (Do_load_failure (X:=externals) app_load_fails (parseParams "/unsafe/a.jpg")
                  empty_store (ErrorOf (NewError "boom" 500)) eq_refl
                  ltac:(vm_compute; reflexivity))).
Defined.

Lemma Do_stops_at_first_success_witness :
  ∃ pre,
    stage_errors (events (Do app_fail_then_ok (parseParams "/unsafe/a.jpg")
                            empty_store)) = pre ++ [None]
    ∧ Forall (λ e, e ≠ None) pre
    ∧ last (stage_outputs (events (Do app_fail_then_ok
                                     (parseParams "/unsafe/a.jpg") empty_store)))
      = Some (result (Do app_fail_then_ok (parseParams "/unsafe/a.jpg")
                        empty_store)).1
    ∧ (result (Do app_fail_then_ok (parseParams "/unsafe/a.jpg") empty_store)).2
      = recorded pre None.
Proof.
  apply (Do_stops_at_first_success (X:=externals) app_fail_then_ok (parseParams "/unsafe/a.jpg")
           empty_store eq_refl eq_refl).
  vm_compute. apply list_elem_of_In. right. left. reflexivity.
Defined.

Lemma Do_metadata_only_on_success_witness :
  (result (Do app_fail_then_ok (parseParams "/unsafe/a.jpg") empty_store)).1.2
  = Some meta2
  ∧ last (stage_outputs (events (Do app_fail_then_ok
                                   (parseParams "/unsafe/a.jpg") empty_store)))
    = Some (b2, Some meta2).
Proof.
  split; [vm_compute; reflexivity|].
  exact (proj2 (Do_metadata_only_on_success (X:=externals) app_fail_then_ok
                  (parseParams "/unsafe/a.jpg") empty_store meta2
                  ltac:(vm_compute; reflexivity))).
Defined.

Lemma Do_cache_first_iff_authorized_witness :
  (∃ hit rest,
     events (Do app_pass_pass (parseParams "/unsafe/a.jpg") empty_store)
     = EvCache "/unsafe/a.jpg" hit :: rest)
  ∧ authorized app_pass_pass (parseParams "/deadbeef/a.jpg") = false
  ∧ cache_calls (events (Do app_pass_pass (parseParams "/deadbeef/a.jpg")
                           empty_store)) = [].
Proof.
  split; [|split; [reflexivity|]].
  - exact (proj2 (proj1 (Do_cache_first_iff_authorized (X:=externals)
                           app_pass_pass (parseParams "/unsafe/a.jpg")
                           empty_store)) eq_refl).
  - exact (proj1 (proj2 (Do_cache_first_iff_authorized (X:=externals)
                           app_pass_pass (parseParams "/deadbeef/a.jpg")
                           empty_store) eq_refl)).
Defined.

Lemma Do_stage_inputs_witness :
  stage_inputs (events (Do Sample.app_pass_bytes_then_ok
                          (parseParams "/unsafe/a.jpg") empty_store))
  = [b1; b2].
Proof.
  exact (Do_stage_inputs (X:=externals) Sample.app_pass_bytes_then_ok
           (parseParams "/unsafe/a.jpg") empty_store eq_refl eq_refl).
Defined.

Lemma Do_exhausted_buffer_witness :
  (result (Do Sample.app_pass_bytes_then_fail (parseParams "/unsafe/a.jpg")
             empty_store)).1.1
  = b2.
Proof.
  exact (Do_exhausted_buffer (X:=externals) Sample.app_pass_bytes_then_fail
           (parseParams "/unsafe/a.jpg") empty_store eq_refl eq_refl
           ltac:(vm_compute; repeat constructor; discriminate)).
Defined.

Lemma load_func_failure_logged_witness :
  last (logged_errors (events (load_func app_load_fails "a.jpg" empty_store)))
  = Some (Some boom).
Proof.
  exact (load_func_failure_logged (X:=externals) app_load_fails "a.jpg" empty_store boom
           ltac:(vm_compute; reflexivity) eq_refl).
Defined.

Lemma load_func_never_pass_witness :
  (result (load_func app_pass_pass "a.jpg" empty_store)).2 ≠ pass.
Proof.
  exact (load_func_never_pass (X:=externals) app_pass_pass "a.jpg" empty_store
           ltac:(discriminate)).
Defined.

Lemma load_func_result_depends_on_loaders_witness :
  result (load_func app_no_timeout "a.jpg" empty_store)
  = result (load_func Sample.app_bytes "a.jpg" pass_store).
Proof.
  exact (load_func_result_depends_on_loaders (X:=externals) app_no_timeout Sample.app_bytes
           "a.jpg" empty_store pass_store eq_refl).
Defined.

Lemma load_func_skips_failed_loader_witness :
  result (load_func app_pass_then_bytes "a.jpg" empty_store)
  = result (load_func Sample.app_bytes "a.jpg" empty_store).
Proof.
  exact (load_func_skips_failed_loader (X:=externals) app_pass_then_bytes Sample.app_bytes
           "a.jpg" empty_store (loader [] pass) (ErrorOf errPass)
           eq_refl ltac:(discriminate) eq_refl).
Defined.

Lemma ServeHTTP_no_status_without_error_witness :
  statuses (result (ServeHTTP Sample.app_bytes "/unsafe/a.jpg" empty_store)) = [].
Proof.
  apply (ServeHTTP_no_status_without_error (X:=externals) Sample.app_bytes
           "/unsafe/a.jpg" empty_store).
  right. vm_compute. reflexivity.
Defined.

Lemma ServeHTTP_no_loaders_witness :
  result (ServeHTTP Sample.app_empty "/unsafe/a.jpg" empty_store)
  = [Header_Set "Content-Length" "0"; Write []].
Proof.
  exact (ServeHTTP_no_loaders (X:=externals) Sample.app_empty "/unsafe/a.jpg" empty_store
           ltac:(discriminate) eq_refl eq_refl eq_refl eq_refl eq_refl).
Defined.

Lemma ServeHTTP_not_found_witness :
  result (ServeHTTP app_pass_pass "/unsafe/a.jpg" empty_store)
  = WriteHeader 404 :: resJSON (JError (ErrorOf errNotFound)).
Proof.
  exact (proj1 (ServeHTTP_not_found (X:=externals) app_pass_pass "/unsafe/a.jpg" empty_store
                  (loader [] pass) ltac:(discriminate) eq_refl eq_refl eq_refl
                  ltac:(repeat constructor; discriminate)
                  ltac:(repeat constructor) eq_refl eq_refl)).
Defined.

Lemma Startup_fail_fast_witness :
  Startup [Sample.started; Sample.broken; Sample.started]
  = (Some boom, [0; 1]%nat).
Proof.
  exact (Startup_fail_fast [Sample.started] Sample.broken [Sample.started] boom
           ltac:(repeat constructor) eq_refl).
Defined.

Lemma Shutdown_fail_fast_witness :
  Shutdown [Sample.started; Sample.broken; Sample.started]
  = (Some boom, [0; 1]%nat).
Proof.
  exact (Shutdown_fail_fast [Sample.started] Sample.broken [Sample.started] boom
           ltac:(repeat constructor) eq_refl).
Defined.

Lemma Startup_Shutdown_all_witness :
  Startup [Sample.started; Sample.started] = (None, [0; 1]%nat)
  ∧ Shutdown [Sample.started; Sample.started] = (None, [0; 1]%nat).
Proof.
  exact (Startup_Shutdown_all [Sample.started; Sample.started]
           ltac:(repeat constructor)).
Defined.

Lemma Set_first_error_witness :
  Flags.Set_ string Sample.parseCIDR ["10.0.0.0/8"] "192.168.0.0/16,oops,::1/128"
  = (["10.0.0.0/8"], Some (Foreign "invalid CIDR address: oops" false)).
Proof.
  exact (Set_first_error string Sample.parseCIDR ["10.0.0.0/8"]
           "192.168.0.0/16,oops,::1/128" ["192.168.0.0/16"] "oops" ["::1/128"]
           (Foreign "invalid CIDR address: oops" false) eq_refl
           ltac:(repeat constructor; by eexists) eq_refl).
Defined.

Lemma Set_String_witness :
  Flags.Set_ string Sample.parseCIDR []
    (Flags.String_ string id ["10.0.0.0/8"; "192.168.0.0/16"])
  = (["10.0.0.0/8"; "192.168.0.0/16"], None).
Proof.
  exact (Set_String string Sample.parseCIDR id [] ["10.0.0.0/8"; "192.168.0.0/16"]
           ltac:(discriminate) ltac:(repeat constructor)).
Defined.

Lemma Path_no_dot_component_witness :
  FileStore.Path_ Sample.clean Sample.join Sample.files "a/b.jpg"
  = ("/data/a/b.jpg", true)
  ∧ ∃ rel,
      "/data/a/b.jpg" = Sample.join "/data" rel
      ∧ FileStore.normalized Sample.clean "a/b.jpg" = "/" +:+ rel
      ∧ String.prefix "." rel = false
      ∧ FileStore.contains "/." rel = false.
Proof.
  split; [reflexivity|].
  exact (Path_no_dot_component Sample.clean Sample.join Sample.files "a/b.jpg"
           "/data/a/b.jpg" "" (or_introl eq_refl) eq_refl eq_refl).
Defined.
